(** * infinite-endpoint-status-proxy.mjs: a shallow embedding

    The service probes a fixed registry of endpoints (JSON-RPC over HTTP,
    a Tendermint [/status] route, raw TCP), turns every probe into an
    [UP]/[DOWN] entry and serves the result over a small HTTP surface with
    CORS headers.

    What the platform does (network, timers, clocks, URL parsing) is an
    input of the model: a probe is run against a [platform] value that
    says how each asynchronous operation settles, and the request handler
    against a [node] value.  Everything the script itself computes is
    translated function by function, under the script's names. *)

From Stdlib Require Import ZArith NArith List String Ascii Bool Lia.
From Stdlib Require Import QArith Qround DecimalString.
Import ListNotations.
Open Scope Z_scope.

(* ================================================================== *)
(** ** JavaScript strings *)

(** A JavaScript string is a sequence of UTF-16 code units. *)
Definition js_string : Type := list N.

(** The code units of an ASCII literal of the script. *)
Definition u (s : string) : js_string :=
  map N_of_ascii (list_ascii_of_string s).

(** [a === b] on strings. *)
Fixpoint str_eqb (a b : js_string) : bool :=
  match a, b with
  | [], [] => true
  | x :: a', y :: b' => N.eqb x y && str_eqb a' b'
  | _, _ => false
  end.

(** A string in boolean position: only the empty string is falsy. *)
Definition str_truthy (s : js_string) : bool :=
  match s with
  | [] => false
  | _ :: _ => true
  end.

(** [x || d] on a string that may be [undefined]. *)
Definition or_default (x : option js_string) (d : js_string) : js_string :=
  match x with
  | Some s => if str_truthy s then s else d
  | None => d
  end.

(** ECMAScript WhiteSpace and LineTerminator code points, the characters
    [String.prototype.trim] removes. *)
Definition is_white_space (c : N) : bool :=
  ((9 <=? c) && (c <=? 13) || (c =? 32) || (c =? 160) || (c =? 5760)
   || (8192 <=? c) && (c <=? 8202)
   || (c =? 8232) || (c =? 8233) || (c =? 8239) || (c =? 8287)
   || (c =? 12288) || (c =? 65279))%N.

(** A string made of white space only. *)
Definition white (s : js_string) : Prop :=
  Forall (fun c => is_white_space c = true) s.

Fixpoint trimStart (s : js_string) : js_string :=
  match s with
  | [] => []
  | c :: s' => if is_white_space c then trimStart s' else s
  end.

Definition trimEnd (s : js_string) : js_string :=
  rev (trimStart (rev s)).

(** [s.trim()] *)
Definition trim (s : js_string) : js_string :=
  trimEnd (trimStart s).

Definition comma : N := 44%N.

(** [s.split(",")]: the pieces between commas, empty pieces included;
    the empty string splits into one empty piece. *)
Fixpoint split_comma (s : js_string) : list js_string :=
  match s with
  | [] => [[]]
  | c :: s' =>
      if N.eqb c comma then [] :: split_comma s'
      else match split_comma s' with
           | [] => [[c]]
           | piece :: pieces => (c :: piece) :: pieces
           end
  end.

(** [list.includes(x)] on an array of strings. *)
Definition includes (l : list js_string) (x : js_string) : bool :=
  existsb (str_eqb x) l.

(** *** Numbers as text

    An integer stands for the Number nearest to it, a double: every
    integer up to 2^53 is one, a larger integer is rounded to 53
    significant bits, ties to even. *)
Definition nearest_double (m : Z) : Z :=
  if m <? 9007199254740992 then m
  else
    let e := Z.log2 m - 52 in
    let q := Z.shiftr m e in
    let r := m - Z.shiftl q e in
    let half := Z.shiftl 1 (e - 1) in
    let q' := if (half <? r) || ((r =? half) && Z.odd q) then q + 1 else q in
    Z.shiftl q' e.

Definition decimal_digits (v : Z) : js_string :=
  u (NilEmpty.string_of_uint (N.to_uint (Z.to_N v))).

(** Number::toString looks for the fewest significant digits that still
    denote the same double: with [k] digits the candidates are the two
    multiples of 10^(nd-k) around [x]; the nearer one wins, the even one
    at equal distance. *)
Fixpoint shortest_decimal (fuel : nat) (k nd x : Z) : Z :=
  match fuel with
  | O => x
  | S fuel' =>
      let p := 10 ^ (nd - k) in
      let below := (x / p) * p in
      let above := below + p in
      let ok_below := nearest_double below =? x in
      let ok_above := nearest_double above =? x in
      if ok_below && ok_above then
        if x - below <? above - x then below
        else if above - x <? x - below then above
        else if Z.even (x / p) then below else above
      else if ok_below then below
      else if ok_above then above
      else shortest_decimal fuel' (k + 1) nd x
  end.

Fixpoint drop_zeros (s : js_string) : js_string :=
  match s with
  | 48%N :: s' => drop_zeros s'
  | _ => s
  end.

(** The text of a positive integer that needs no more digits: plain
    decimal up to 21 digits, exponent form beyond. *)
Definition print_digits (v : Z) : js_string :=
  let digits := decimal_digits v in
  let n := Z.of_nat (List.length digits) in
  if n <=? 21 then digits
  else
    match rev (drop_zeros (rev digits)) with
    | [] => digits
    | [d] => d :: u "e+" ++ decimal_digits (n - 1)
    | d :: more => d :: u "." ++ more ++ u "e+" ++ decimal_digits (n - 1)
    end.

(** An integer-valued number inside a template literal, [`${n}`]. *)
Definition num_to_string (n : Z) : js_string :=
  if n =? 0 then u "0"
  else
    let x := nearest_double (Z.abs n) in
    let sign := if n <? 0 then u "-" else [] in
    if 2 ^ 1024 <=? x then sign ++ u "Infinity"
    else
      let nd := Z.of_nat (List.length (decimal_digits x)) in
      sign ++ print_digits (shortest_decimal (Z.to_nat nd) 1 nd x).

(* ================================================================== *)
(** ** JSON values, as [JSON.parse] and [res.json()] deliver them *)

#[local] Set Warnings "-register-all".

(** Numbers are integer-valued in this model; an object carries its own
    properties, each key once. *)
Inductive json : Type :=
  | JNull
  | JBool (b : bool)
  | JNum (n : Z)
  | JStr (s : js_string)
  | JArr (items : list json)
  | JObj (fields : list (js_string * json)).

(** A value in boolean position. *)
Definition truthy (v : json) : bool :=
  match v with
  | JNull => false
  | JBool b => b
  | JNum n => negb (n =? 0)
  | JStr s => str_truthy s
  | JArr _ => true
  | JObj _ => true
  end.

Fixpoint assoc {V : Type} (k : js_string) (l : list (js_string * V)) : option V :=
  match l with
  | [] => None
  | (k', v) :: l' => if str_eqb k k' then Some v else assoc k l'
  end.

(** [v?.key] for a key that no built-in prototype defines (the script
    reads [error] and [message]): [None] is [undefined].  Only an object
    has such a property; [null?.key] is [undefined]. *)
Definition get_prop (v : json) (key : js_string) : option json :=
  match v with
  | JObj fields => assoc key fields
  | _ => None
  end.

Definition has_own (key : js_string) (fields : list (js_string * json)) : bool :=
  match assoc key fields with
  | Some _ => true
  | None => false
  end.

Fixpoint join_comma (pieces : list js_string) : js_string :=
  match pieces with
  | [] => []
  | [p] => p
  | p :: rest => p ++ comma :: join_comma rest
  end.

(** The abstract operation ToString on a parsed JSON value; [None] when
    it throws a TypeError.  An array is joined with commas, [null]
    elements printing as nothing; a plain object prints through
    [Object.prototype.toString] unless an own [toString] property (never
    callable in parsed JSON) hides it, in which case no conversion
    succeeds. *)
Fixpoint ToString (v : json) : option js_string :=
  match v with
  | JNull => Some (u "null")
  | JBool true => Some (u "true")
  | JBool false => Some (u "false")
  | JNum n => Some (num_to_string n)
  | JStr s => Some s
  | JArr items =>
      option_map join_comma
        ((fix elements (l : list json) : option (list js_string) :=
         match l with
         | [] => Some []
         | x :: l' =>
             match (match x with JNull => Some [] | _ => ToString x end),
                   elements l' with
             | Some p, Some ps => Some (p :: ps)
             | _, _ => None
             end
         end) items)
  | JObj fields =>
      if has_own (u "toString") fields then None
      else Some (u "[object Object]")
  end.

(* ================================================================== *)
(** ** Exceptions, completions and promises *)

(** What a [catch] clause can receive: an [Error] instance with its
    message, or some other value. *)
Inductive thrown : Type :=
  | Error (message : js_string)
  | NotAnError.

(** How the evaluation of an [async] function body ends: it returns, it
    throws, or it waits for ever on a promise that never settles. *)
Inductive completion (A : Type) : Type :=
  | Returned (a : A)
  | Thrown (e : thrown)
  | Pending.
Arguments Returned {A} a.
Arguments Thrown {A} e.
Arguments Pending {A}.

Definition bind {A B : Type} (c : completion A) (k : A -> completion B)
  : completion B :=
  match c with
  | Returned a => k a
  | Thrown e => Thrown e
  | Pending => Pending
  end.

Notation "x <- c ;; k" := (bind c (fun x => k))
  (at level 100, c at next level, right associativity).

Inductive settled (A : Type) : Type :=
  | Fulfilled (a : A)
  | Rejected (e : thrown).
Arguments Fulfilled {A} a.
Arguments Rejected {A} e.

(** A promise, seen from the moment it is created: it settles after a
    number of milliseconds, or never. *)
Inductive promise (A : Type) : Type :=
  | Settles (after_ms : Z) (s : settled A)
  | NeverSettles.
Arguments Settles {A} after_ms s.
Arguments NeverSettles {A}.

(** [await p] *)
Definition await {A : Type} (p : promise A) : completion A :=
  match p with
  | Settles _ (Fulfilled a) => Returned a
  | Settles _ (Rejected e) => Thrown e
  | NeverSettles => Pending
  end.

(** The delay [setTimeout] really uses: Node replaces a delay below 1 or
    above 2^31-1 by 1. *)
Definition timer_delay (ms : Z) : Z :=
  if (1 <=? ms) && (ms <=? 2147483647) then ms else 1.

(** [withTimeout(promise, timeoutMs)]: a race between the promise and a
    timer that rejects.  The promise, first in the array and created
    first, wins when it settles no later than the timer fires; the
    losing operation is not cancelled, its result is ignored. *)
Definition withTimeout {A : Type} (p : promise A) (timeoutMs : Z) : promise A :=
  let timer :=
    Settles (timer_delay timeoutMs)
      (Rejected (Error (u "timeout after " ++ num_to_string timeoutMs ++ u "ms")))
  in
  match p with
  | Settles after_ms s =>
      if after_ms <=? timer_delay timeoutMs then Settles after_ms s else timer
  | NeverSettles => timer
  end.

(* ================================================================== *)
(** ** The platform, as one probe sees it *)

Record request_init : Type := {
  init_method : js_string;
  init_headers : list (js_string * js_string);
  init_body : js_string
}.

(** A [fetch] response: its status code and what [res.json()] does once
    it is called. *)
Record response : Type := {
  res_status : Z;
  res_json : promise json
}.

(** [res.ok] *)
Definition res_ok (res : response) : bool :=
  (200 <=? res_status res) && (res_status res <=? 299).

(** What a socket made by [net.createConnection] emits first. *)
Inductive socket : Type :=
  | EmitsConnect (after_ms : Z)
  | EmitsError (after_ms : Z) (err : thrown)
  | EmitsNothing.

(** The platform during one probe: the two readings of the wall clock
    ([Date.now()] on entry and before returning), the answer of [fetch]
    to a request, and the socket a connection attempt yields. *)
Record platform : Type := {
  now_on_entry : Z;
  now_on_return : Z;
  fetch : js_string -> option request_init -> promise response;
  createConnection : js_string -> Z -> socket
}.

(* ================================================================== *)
(** ** Configuration and the check registry *)

(** The process environment.  String settings are looked up by name;
    the numeric settings are taken after [Number(...)], as integers. *)
Record settings : Type := {
  env : js_string -> option js_string;
  REQUEST_TIMEOUT_MS : Z;
  INFINITE_GRPC_PORT : Z;
  INFINITE_GRPC_TESTNET_PORT : Z
}.

Definition CORS_ORIGIN (s : settings) : js_string :=
  or_default (env s (u "CORS_ORIGIN")) (u "https://foxxone.one").

(** [CORS_ORIGIN.split(",").map((value) => value.trim()).filter(Boolean)] *)
Definition allow_origins_of (cors_origin : js_string) : list js_string :=
  filter str_truthy (map trim (split_comma cors_origin)).

Definition ALLOW_ORIGINS (s : settings) : list js_string :=
  allow_origins_of (CORS_ORIGIN s).

Inductive check_kind : Type :=
  | jsonrpc (url : js_string)
  | tendermint (url : js_string)
  | tcp (host : js_string) (port : Z).

Record check : Type := {
  id : js_string;
  kind : check_kind
}.

Definition CHECKS (s : settings) : list check :=
  [ {| id := u "infinite-evm";
       kind := jsonrpc (or_default (env s (u "INFINITE_EVM_URL"))
                          (u "https://evm-rpc.infinitedrive.xyz")) |};
    {| id := u "infinite-comet";
       kind := tendermint (or_default (env s (u "INFINITE_COMET_URL"))
                             (u "https://comet-rpc.infinitedrive.xyz")) |};
    {| id := u "infinite-grpc";
       kind := tcp (or_default (env s (u "INFINITE_GRPC_HOST"))
                      (u "grpc.infinitedrive.xyz"))
                   (INFINITE_GRPC_PORT s) |};
    {| id := u "infinite-evm-testnet";
       kind := jsonrpc (or_default (env s (u "INFINITE_EVM_TESTNET_URL"))
                          (u "https://evm-rpc-testnet.infinitedrive.xyz")) |};
    {| id := u "infinite-comet-testnet";
       kind := tendermint (or_default (env s (u "INFINITE_COMET_TESTNET_URL"))
                             (u "https://comet-rpc-testnet.infinitedrive.xyz")) |};
    {| id := u "infinite-grpc-testnet";
       kind := tcp (or_default (env s (u "INFINITE_GRPC_TESTNET_HOST"))
                      (u "grpc-testnet.infinitedrive.xyz"))
                   (INFINITE_GRPC_TESTNET_PORT s) |} ].

(* ================================================================== *)
(** ** CORS *)

Definition resolveAllowedOrigin (allow : list js_string) (requestOrigin : js_string)
  : js_string :=
  match allow with
  | [] => u "*"
  | first :: _ =>
      if includes allow (u "*") then u "*"
      else if negb (str_truthy requestOrigin) then first
      else if includes allow requestOrigin then requestOrigin
      else first
  end.

Definition jsonHeaders (allow : list js_string) (requestOrigin : js_string)
  : list (js_string * js_string) :=
  let allowOrigin := resolveAllowedOrigin allow requestOrigin in
  [ (u "content-type", u "application/json; charset=utf-8");
    (u "cache-control", u "no-store");
    (u "access-control-allow-origin", allowOrigin);
    (u "access-control-allow-methods", u "GET, OPTIONS");
    (u "access-control-allow-headers", u "content-type") ].

(* ================================================================== *)
(** ** The three probes *)

(** The request body of the JSON-RPC probe, [JSON.stringify] of the
    envelope [{jsonrpc: 2.0, id: 1, method: web3_clientVersion, params: []}]
    (the double quotes are code unit 34). *)
Definition q : js_string := [34%N].

Definition jsonrpc_envelope : js_string :=
  u "{" ++ q ++ u "jsonrpc" ++ q ++ u ":" ++ q ++ u "2.0" ++ q ++ u ","
    ++ q ++ u "id" ++ q ++ u ":1,"
    ++ q ++ u "method" ++ q ++ u ":" ++ q ++ u "web3_clientVersion" ++ q ++ u ","
    ++ q ++ u "params" ++ q ++ u ":[]}".

(** The second argument of [fetch] in the JSON-RPC probe. *)
Definition jsonrpc_init : request_init :=
  {| init_method := u "POST";
     init_headers := [(u "content-type", u "application/json")];
     init_body := jsonrpc_envelope |}.

(** [new Error(data.error.message || "json-rpc error")]: the message the
    constructor stores, or the TypeError its conversion throws. *)
Definition json_rpc_error (error : json) : thrown :=
  let message :=
    match get_prop error (u "message") with
    | Some m => if truthy m then m else JStr (u "json-rpc error")
    | None => JStr (u "json-rpc error")
    end in
  match ToString message with
  | Some text => Error text
  | None => Error (u "Cannot convert object to primitive value")
  end.

Definition probeJsonRpc (timeout : Z) (io : platform) (url : js_string)
  : completion Z :=
  let start := now_on_entry io in
  res <- await (withTimeout (fetch io url (Some jsonrpc_init)) timeout) ;;
  if negb (res_ok res)
  then Thrown (Error (u "HTTP " ++ num_to_string (res_status res)))
  else
    data <- await (res_json res) ;;
    match get_prop data (u "error") with
    | Some error =>
        if truthy error then Thrown (json_rpc_error error)
        else Returned (now_on_return io - start)
    | None => Returned (now_on_return io - start)
    end.

Definition probeTendermintStatus (timeout : Z) (io : platform) (url : js_string)
  : completion Z :=
  let start := now_on_entry io in
  res <- await (withTimeout (fetch io (url ++ u "/status") None) timeout) ;;
  if negb (res_ok res)
  then Thrown (Error (u "HTTP " ++ num_to_string (res_status res)))
  else Returned (now_on_return io - start).

(** The promise [probeTcp] builds around the socket: [connect] resolves
    it with [true], [error] rejects it with the error emitted. *)
Definition connection_promise (sock : socket) : promise bool :=
  match sock with
  | EmitsConnect after_ms => Settles after_ms (Fulfilled true)
  | EmitsError after_ms err => Settles after_ms (Rejected err)
  | EmitsNothing => NeverSettles
  end.

Definition probeTcp (timeout : Z) (io : platform) (host : js_string) (port : Z)
  : completion Z :=
  let start := now_on_entry io in
  _ <- await (withTimeout (connection_promise (createConnection io host port))
                timeout) ;;
  Returned (now_on_return io - start).

(* ================================================================== *)
(** ** Objects used as maps *)

(** The own properties of an object, in the order they were created.
    (Keys are ordinary property names; the registry has no [__proto__]
    id, which an assignment would treat as the prototype.) *)
Definition js_object (V : Type) : Type := list (js_string * V).

(** [o[k] = v]: an existing property keeps its place and takes the new
    value, a new one is created last. *)
Fixpoint obj_set {V : Type} (k : js_string) (v : V) (o : js_object V) : js_object V :=
  match o with
  | [] => [(k, v)]
  | (k', v') :: o' =>
      if str_eqb k k' then (k', v) :: o' else (k', v') :: obj_set k v o'
  end.

(** [o[k]] *)
Definition obj_get {V : Type} (k : js_string) (o : js_object V) : option V :=
  assoc k o.

Fixpoint digits_value (acc : N) (s : js_string) : option N :=
  match s with
  | [] => Some acc
  | c :: s' =>
      if ((48 <=? c) && (c <=? 57))%N
      then digits_value (10 * acc + (c - 48))%N s'
      else None
  end.

(** A property key that is an array index: the canonical decimal form of
    an integer from 0 to 2^32-2. *)
Definition array_index (k : js_string) : option N :=
  match k with
  | [] => None
  | c :: rest =>
      if (c =? 48)%N && str_truthy rest then None
      else match digits_value 0%N k with
           | Some n => if (n <=? 4294967294)%N then Some n else None
           | None => None
           end
  end.

Definition is_array_index (k : js_string) : bool :=
  match array_index k with
  | Some _ => true
  | None => false
  end.

Fixpoint insert_by_index {V : Type} (n : N) (e : js_string * V)
    (l : list (N * (js_string * V))) : list (N * (js_string * V)) :=
  match l with
  | [] => [(n, e)]
  | (m, e') :: l' =>
      if (n <=? m)%N then (n, e) :: l else (m, e') :: insert_by_index n e l'
  end.

Fixpoint index_entries {V : Type} (o : js_object V) : list (N * (js_string * V)) :=
  match o with
  | [] => []
  | (k, v) :: o' =>
      match array_index k with
      | Some n => insert_by_index n (k, v) (index_entries o')
      | None => index_entries o'
      end
  end.

(** The order in which [Object.keys], [for-in] and [JSON.stringify] visit
    the own properties: array indices in ascending order first, then the
    other keys in creation order. *)
Definition own_entries {V : Type} (o : js_object V) : list (js_string * V) :=
  map snd (index_entries o)
    ++ filter (fun e => negb (is_array_index (fst e))) o.

Definition own_keys {V : Type} (o : js_object V) : list js_string :=
  map fst (own_entries o).

(* ================================================================== *)
(** ** runChecks *)

Record outcome : Type := {
  status : js_string;
  detail : js_string;
  latency_ms : option Z
}.

Record report : Type := {
  checked_at : js_string;
  source : js_string;
  statuses : js_object outcome
}.

(** The dispatch on [check.kind]: the three [if]s of the loop body, one
    per kind string, of which a descriptor matches exactly one. *)
Definition probe (timeout : Z) (io : platform) (c : check) : completion Z :=
  match kind c with
  | jsonrpc url => probeJsonRpc timeout io url
  | tendermint url => probeTendermintStatus timeout io url
  | tcp host port => probeTcp timeout io host port
  end.

Definition up (latencyMs : Z) : outcome :=
  {| status := u "UP";
     detail := u "Latency " ++ num_to_string latencyMs ++ u "ms";
     latency_ms := Some latencyMs |}.

Definition down (err : thrown) : outcome :=
  {| status := u "DOWN";
     detail := match err with
               | Error message => message
               | NotAnError => u "request failed"
               end;
     latency_ms := None |}.

(** The [try]/[catch] of one loop iteration: the value stored under
    [check.id]. *)
Definition check_entry (timeout : Z) (io : platform) (c : check)
  : completion outcome :=
  match probe timeout io c with
  | Returned latencyMs => Returned (up latencyMs)
  | Thrown err => Returned (down err)
  | Pending => Pending
  end.

(** The world of one call of [runChecks]: the platform during each loop
    iteration, and [new Date().toISOString()] when the report is built. *)
Record world : Type := {
  during : nat -> platform;
  iso_time : js_string
}.

(** The [for ... of] loop, from iteration [i] on. *)
Fixpoint for_each_check (timeout : Z) (w : world) (i : nat)
    (checks : list check) (acc : js_object outcome)
  : completion (js_object outcome) :=
  match checks with
  | [] => Returned acc
  | c :: rest =>
      entry <- check_entry timeout (during w i) c ;;
      for_each_check timeout w (S i) rest (obj_set (id c) entry acc)
  end.

(** [runChecks] over a registry and a timeout. *)
Definition run_checks (timeout : Z) (checks : list check) (w : world)
  : completion report :=
  result <- for_each_check timeout w 0 checks [] ;;
  Returned {| checked_at := iso_time w;
              source := u "server";
              statuses := result |}.

Definition runChecks (s : settings) (w : world) : completion report :=
  run_checks (REQUEST_TIMEOUT_MS s) (CHECKS s) w.

(* ================================================================== *)
(** ** The HTTP request handler *)

Record request : Type := {
  method : js_string;
  url : option js_string;
  host_header : option js_string;
  origin_header : option js_string
}.

(** [res.writeHead(code, headers); res.end(JSON.stringify(body))], the
    body kept as the value handed to [JSON.stringify]. *)
Record http_response : Type := {
  code : Z;
  headers : list (js_string * js_string);
  body : option json
}.

(** What Node supplies to one request: the [pathname] of
    [new URL(input, base)] ([None] when the constructor throws), the
    value of [process.uptime()] in seconds, and the world [runChecks]
    runs in. *)
Record node : Type := {
  URL_pathname : js_string -> js_string -> option js_string;
  process_uptime : Q;
  probes : world
}.

(** [Math.round] *)
Definition Math_round (x : Q) : Z := Qfloor (x + (1 # 2)).

Definition outcome_json (o : outcome) : json :=
  JObj [ (u "status", JStr (status o));
         (u "detail", JStr (detail o));
         (u "latency_ms",
          match latency_ms o with
          | Some n => JNum n
          | None => JNull
          end) ].

Definition report_json (r : report) : json :=
  JObj [ (u "checked_at", JStr (checked_at r));
         (u "source", JStr (source r));
         (u "statuses",
          JObj (map (fun e => (fst e, outcome_json (snd e)))
                  (own_entries (statuses r)))) ].

Definition error_body (name : string) : option json :=
  Some (JObj [(u "error", JStr (u name))]).

(** [typeof req.headers.origin === "string" ? req.headers.origin : ""] *)
Definition request_origin (req : request) : js_string :=
  match origin_header req with
  | Some origin => origin
  | None => []
  end.

(** The base of [new URL]: [http://] and [req.headers.host || "localhost"]. *)
Definition request_base (req : request) : js_string :=
  u "http://" ++ or_default (host_header req) (u "localhost").

Definition handler (s : settings) (n : node) (req : request)
  : completion http_response :=
  let requestOrigin := request_origin req in
  let headers := jsonHeaders (ALLOW_ORIGINS s) requestOrigin in
  let respond (code : Z) (body : option json) :=
    Returned {| code := code; headers := headers; body := body |} in
  if str_eqb (method req) (u "OPTIONS") then respond 204 None
  else
    match url req with
    | None => respond 400 (error_body "missing_url")
    | Some target =>
        if negb (str_truthy target) then respond 400 (error_body "missing_url")
        else
          match URL_pathname n target (request_base req) with
          | None => Thrown (Error (u "Invalid URL"))
          | Some pathname =>
              if negb (str_eqb (method req) (u "GET")) then
                respond 405 (error_body "method_not_allowed")
              else if str_eqb pathname (u "/healthz") then
                respond 200
                  (Some (JObj [ (u "ok", JBool true);
                                (u "uptime_s",
                                 JNum (Math_round (process_uptime n))) ]))
              else if str_eqb pathname (u "/endpoint-status") then
                match runChecks s (probes n) with
                | Returned payload => respond 200 (Some (report_json payload))
                | Thrown err =>
                    respond 500
                      (Some (JObj [ (u "error", JStr (u "status_check_failed"));
                                    (u "detail",
                                     JStr match err with
                                          | Error message => message
                                          | NotAnError => u "unknown error"
                                          end) ]))
                | Pending => Pending
                end
              else respond 404 (error_body "not_found")
          end
    end.

(* ================================================================== *)
(** ** Vocabulary of the statements, and example values *)

(** The ids of the registry, in registry order. *)
Definition registry_ids : list js_string :=
  [ u "infinite-evm"; u "infinite-comet"; u "infinite-grpc";
    u "infinite-evm-testnet"; u "infinite-comet-testnet";
    u "infinite-grpc-testnet" ].

(** A promise that has not settled [ms] milliseconds after its creation. *)
Definition unsettled_after {A : Type} (p : promise A) (ms : Z) : Prop :=
  match p with
  | Settles after_ms _ => ms < after_ms
  | NeverSettles => True
  end.

(** The one operation each probe puts under the timeout. *)
Definition guarded_operation_unsettled (io : platform) (c : check) (ms : Z)
  : Prop :=
  match kind c with
  | jsonrpc url => unsettled_after (fetch io url (Some jsonrpc_init)) ms
  | tendermint url => unsettled_after (fetch io (url ++ u "/status") None) ms
  | tcp host port =>
      unsettled_after (connection_promise (createConnection io host port)) ms
  end.

(** The error the JSON-RPC probe acts on: [data?.error] when it is
    truthy. *)
Definition rpc_error (data : json) : option json :=
  match get_prop data (u "error") with
  | Some error => if truthy error then Some error else None
  | None => None
  end.

(** The entry of a probe that lost the race against the timer. *)
Definition timed_out (timeout : Z) : outcome :=
  {| status := u "DOWN";
     detail := u "timeout after " ++ num_to_string timeout ++ u "ms";
     latency_ms := None |}.

(** A response written with the headers every branch of the handler
    uses. *)
Definition respond_with (s : settings) (req : request) (status_code : Z)
    (content : option json) : completion http_response :=
  Returned {| code := status_code;
              headers := jsonHeaders (ALLOW_ORIGINS s) (request_origin req);
              body := content |}.

(** An example of a URL parser answer, used where a statement is
    evaluated on a concrete request: for an origin-form target (a path
    starting with one slash, made of letters, digits, [-] and [/], then
    possibly a query) [new URL] keeps the path as written. *)
Fixpoint path_prefix (s : js_string) : js_string :=
  match s with
  | [] => []
  | c :: s' => if ((c =? 63) || (c =? 35))%N then [] else c :: path_prefix s'
  end.

Definition origin_form_pathname (input base : js_string) : option js_string :=
  match input with
  | 47%N :: 47%N :: _ => None
  | 47%N :: _ => Some (path_prefix input)
  | _ => None
  end.

(** A request as a browser page at [origin] sends it. *)
Definition request_from (verb : string) (target : string)
    (origin : option js_string) : request :=
  {| method := u verb;
     url := Some (u target);
     host_header := Some (u "status.example.org");
     origin_header := origin |}.

(** The settings of a process started with an empty environment. *)
Definition default_settings : settings :=
  {| env := fun _ => None;
     REQUEST_TIMEOUT_MS := 7000;
     INFINITE_GRPC_PORT := 443;
     INFINITE_GRPC_TESTNET_PORT := 443 |}.

(** A process started with [CORS_ORIGIN] set to blanks and commas. *)
Definition blank_cors_settings : settings :=
  {| env := fun name =>
       if str_eqb name (u "CORS_ORIGIN") then Some (u " , ,") else None;
     REQUEST_TIMEOUT_MS := 7000;
     INFINITE_GRPC_PORT := 443;
     INFINITE_GRPC_TESTNET_PORT := 443 |}.

(** A string made of commas and white space only. *)
Definition blank_list (s : js_string) : Prop :=
  Forall (fun c => c = comma \/ is_white_space c = true) s.

(** A platform on which every endpoint answers: the HTTP response comes
    after 40 ms, its body [{result: v1}] 2 ms later, a socket connects
    after 30 ms. *)
Definition healthy : platform :=
  {| now_on_entry := 1000;
     now_on_return := 1042;
     fetch := fun _ _ =>
       Settles 40 (Fulfilled
         {| res_status := 200;
            res_json := Settles 2 (Fulfilled (JObj [(u "result", JStr (u "v1"))])) |});
     createConnection := fun _ _ => EmitsConnect 30 |}.

(** A platform on which nothing listens: requests and connections fail
    at once. *)
Definition refusing : platform :=
  {| now_on_entry := 1000;
     now_on_return := 1001;
     fetch := fun _ _ => Settles 1 (Rejected (Error (u "fetch failed")));
     createConnection := fun _ _ =>
       EmitsError 1 (Error (u "connect ECONNREFUSED 127.0.0.1:443")) |}.

(** A platform whose HTTP endpoints answer 503. *)
Definition unavailable : platform :=
  {| now_on_entry := 1000;
     now_on_return := 1009;
     fetch := fun _ _ =>
       Settles 9 (Fulfilled {| res_status := 503; res_json := NeverSettles |});
     createConnection := fun _ _ => EmitsNothing |}.

(** A platform on which nothing ever answers. *)
Definition silent : platform :=
  {| now_on_entry := 1000;
     now_on_return := 8000;
     fetch := fun _ _ => NeverSettles;
     createConnection := fun _ _ => EmitsNothing |}.

(** A JSON-RPC endpoint that sends its response head after 100 ms and
    the body ten seconds later. *)
Definition slow_body : platform :=
  {| now_on_entry := 1000;
     now_on_return := 11100;
     fetch := fun _ _ =>
       Settles 100 (Fulfilled
         {| res_status := 200;
            res_json :=
              Settles 10000 (Fulfilled (JObj [(u "result", JStr (u "v1"))])) |});
     createConnection := fun _ _ => EmitsNothing |}.

(** The same endpoint when the body never ends. *)
Definition endless_body : platform :=
  {| now_on_entry := 1000;
     now_on_return := 11100;
     fetch := fun _ _ =>
       Settles 100 (Fulfilled {| res_status := 200; res_json := NeverSettles |});
     createConnection := fun _ _ => EmitsNothing |}.

(** A JSON-RPC 1.0 style answer: a result, and [error: null]. *)
Definition null_error : platform :=
  {| now_on_entry := 1000;
     now_on_return := 1042;
     fetch := fun _ _ =>
       Settles 40 (Fulfilled
         {| res_status := 200;
            res_json :=
              Settles 2 (Fulfilled
                (JObj [ (u "jsonrpc", JStr (u "2.0")); (u "id", JNum 1);
                        (u "result", JStr (u "v1")); (u "error", JNull) ])) |});
     createConnection := fun _ _ => EmitsNothing |}.

(** A JSON-RPC error answer. *)
Definition method_not_found : platform :=
  {| now_on_entry := 1000;
     now_on_return := 1042;
     fetch := fun _ _ =>
       Settles 40 (Fulfilled
         {| res_status := 200;
            res_json :=
              Settles 2 (Fulfilled
                (JObj [ (u "jsonrpc", JStr (u "2.0")); (u "id", JNum 1);
                        (u "error",
                         JObj [ (u "code", JNum (-32601));
                                (u "message", JStr (u "Method not found")) ]) ])) |});
     createConnection := fun _ _ => EmitsNothing |}.

(** A healthy endpoint probed while the wall clock is set back by a
    second. *)
Definition clock_set_back : platform :=
  {| now_on_entry := 1000;
     now_on_return := 30;
     fetch := fetch healthy;
     createConnection := createConnection healthy |}.

Definition evm_check : check :=
  {| id := u "infinite-evm";
     kind := jsonrpc (u "https://evm-rpc.infinitedrive.xyz") |}.

Definition grpc_check : check :=
  {| id := u "infinite-grpc";
     kind := tcp (u "grpc.infinitedrive.xyz") 443 |}.

(** A world that alternates between the three. *)
Definition mixed_world : world :=
  {| during := fun i =>
       match i with
       | 0%nat | 3%nat => healthy
       | 1%nat | 4%nat => refusing
       | _ => silent
       end;
     iso_time := u "2026-02-24T00:00:00.000Z" |}.

Definition example_node : node :=
  {| URL_pathname := origin_form_pathname;
     process_uptime := 5 # 2;
     probes := mixed_world |}.

(** The operation a probe puts under the timeout fails after [after_ms]
    milliseconds with [e]: [fetch] rejects, or the socket emits [error]. *)
Definition guarded_operation_rejects (io : platform) (c : check)
    (after_ms : Z) (e : thrown) : Prop :=
  match kind c with
  | jsonrpc url => fetch io url (Some jsonrpc_init) = Settles after_ms (Rejected e)
  | tendermint url =>
      fetch io (url ++ u "/status") None = Settles after_ms (Rejected e)
  | tcp host port => createConnection io host port = EmitsError after_ms e
  end.

(** The two shapes of an entry: [UP] with a latency and its text, or
    [DOWN] without latency. *)
Definition well_formed_entry (o : outcome) : Prop :=
  (status o = u "UP"
   /\ exists latencyMs,
        latency_ms o = Some latencyMs
        /\ detail o = u "Latency " ++ num_to_string latencyMs ++ u "ms")
  \/ (status o = u "DOWN" /\ latency_ms o = None).

(** The address a check probes. *)
Definition target_of (c : check) : js_string :=
  match kind c with
  | jsonrpc url => url
  | tendermint url => url
  | tcp host _ => host
  end.

(** The status codes the handler writes. *)
Definition written_codes : list Z := [200; 204; 400; 404; 405].

Definition comet_check : check :=
  {| id := u "infinite-comet";
     kind := tendermint (u "https://comet-rpc.infinitedrive.xyz") |}.

(** A JSON-RPC endpoint that answers [{error: boom}], the error being a
    string and not an object. *)
Definition string_error : platform :=
  {| now_on_entry := 1000;
     now_on_return := 1042;
     fetch := fun _ _ =>
       Settles 40 (Fulfilled
         {| res_status := 200;
            res_json :=
              Settles 2 (Fulfilled (JObj [(u "error", JStr (u "boom"))])) |});
     createConnection := fun _ _ => EmitsNothing |}.

(** A process started with a timeout beyond what a timer accepts. *)
Definition oversized_timeout_settings : settings :=
  {| env := fun _ => None;
     REQUEST_TIMEOUT_MS := 3000000000;
     INFINITE_GRPC_PORT := 443;
     INFINITE_GRPC_TESTNET_PORT := 443 |}.

(** A world in which every endpoint answers. *)
Definition healthy_world : world :=
  {| during := fun _ => healthy;
     iso_time := u "2026-02-24T00:00:00.000Z" |}.

(** A node whose first JSON-RPC endpoint never finishes its body. *)
Definition stalled_node : node :=
  {| URL_pathname := origin_form_pathname;
     process_uptime := 5 # 2;
     probes := {| during := fun _ => endless_body;
                  iso_time := u "2026-02-24T00:00:00.000Z" |} |}.

(** The same environment with every variable that is set to the empty
    string removed. *)
Definition unset_if_empty (x : option js_string) : option js_string :=
  match x with
  | Some [] => None
  | other => other
  end.

Definition without_empty_variables (s : settings) : settings :=
  {| env := fun name => unset_if_empty (env s name);
     REQUEST_TIMEOUT_MS := REQUEST_TIMEOUT_MS s;
     INFINITE_GRPC_PORT := INFINITE_GRPC_PORT s;
     INFINITE_GRPC_TESTNET_PORT := INFINITE_GRPC_TESTNET_PORT s |}.

(** The code units [trim] removes, one by one. *)
Definition white_space_code_units : list N :=
  [ 9; 10; 11; 12; 13; 32; 160; 5760;
    8192; 8193; 8194; 8195; 8196; 8197; 8198; 8199; 8200; 8201; 8202;
    8232; 8233; 8239; 8287; 12288; 65279 ]%N.

(** A string that neither starts nor ends with white space. *)
Definition tight (s : js_string) : Prop :=
  (forall c r, s = c :: r -> is_white_space c = false)
  /\ (forall r c, s = r ++ [c] -> is_white_space c = false).

(** A process started with two origins in [CORS_ORIGIN], written with
    blanks around them and with empty pieces after them. *)
Definition two_origin_settings : settings :=
  {| env := fun name =>
       if str_eqb name (u "CORS_ORIGIN")
       then Some (u " https://a.com , https://b.com ,,")
       else None;
     REQUEST_TIMEOUT_MS := 7000;
     INFINITE_GRPC_PORT := 443;
     INFINITE_GRPC_TESTNET_PORT := 443 |}.

(* ================================================================== *)
(** * Properties *)

(** ** Strings *)

Lemma str_eqb_spec (a b : js_string) : str_eqb a b = true <-> a = b.
Proof.
  revert b; induction a as [|x a IH]; intros [|y b]; simpl; split;
    try congruence; try reflexivity.
  - rewrite andb_true_iff, N.eqb_eq, IH. intros [-> ->]; reflexivity.
  - intros H; injection H as -> ->.
    rewrite N.eqb_refl; simpl. now apply IH.
Qed.

Lemma str_eqb_refl (a : js_string) : str_eqb a a = true.
Proof. now apply str_eqb_spec. Qed.

Lemma str_eqb_neq (a b : js_string) : str_eqb a b = false <-> a <> b.
Proof.
  rewrite <- str_eqb_spec. destruct (str_eqb a b); split; congruence.
Qed.

Lemma includes_In (l : list js_string) (x : js_string) :
  includes l x = true <-> In x l.
Proof.
  unfold includes. rewrite existsb_exists. split.
  - intros (y & Hy & E). apply str_eqb_spec in E. now subst.
  - intros H. exists x. split; [assumption | apply str_eqb_refl].
Qed.

Lemma includes_not_In (l : list js_string) (x : js_string) :
  includes l x = false <-> ~ In x l.
Proof.
  rewrite <- includes_In. destruct (includes l x); split; congruence.
Qed.

Lemma str_truthy_nonempty (s : js_string) : str_truthy s = true <-> s <> [].
Proof. destruct s; simpl; split; congruence. Qed.

Lemma trimStart_white (s : js_string) : white s -> trimStart s = [].
Proof.
  induction 1 as [|c s Hc _ IH]; simpl; [reflexivity|]. now rewrite Hc.
Qed.

Lemma trimStart_empty_white (s : js_string) : trimStart s = [] -> white s.
Proof.
  unfold white. induction s as [|c s IH]; simpl; [constructor|].
  destruct (is_white_space c) eqn:Hc; [|discriminate].
  intros H. constructor; [exact Hc | exact (IH H)].
Qed.

Lemma trimStart_app_white (a s : js_string) :
  white a -> trimStart (a ++ s) = trimStart s.
Proof.
  induction 1 as [|c a Hc _ IH]; simpl; [reflexivity|]. now rewrite Hc.
Qed.

Lemma trimStart_app (s b : js_string) :
  trimStart s <> [] -> trimStart (s ++ b) = trimStart s ++ b.
Proof.
  induction s as [|c s IH]; simpl; [congruence|].
  destruct (is_white_space c); [exact IH | reflexivity].
Qed.

Lemma white_rev (s : js_string) : white s -> white (rev s).
Proof. unfold white. apply Forall_rev. Qed.

Lemma trimEnd_app_white (s b : js_string) :
  white b -> trimEnd (s ++ b) = trimEnd s.
Proof.
  intros Hb. unfold trimEnd. rewrite rev_app_distr.
  now rewrite trimStart_app_white by now apply white_rev.
Qed.

(** White space around a piece does not change what [trim] keeps. *)
Lemma trim_padding (a s b : js_string) :
  white a -> white b -> trim (a ++ s ++ b) = trim s.
Proof.
  intros Ha Hb. unfold trim. rewrite trimStart_app_white by assumption.
  destruct (trimStart s) as [|c t] eqn:E.
  - apply trimStart_empty_white in E.
    rewrite trimStart_white; [reflexivity|].
    unfold white in *. apply Forall_app; split; assumption.
  - rewrite trimStart_app by congruence. rewrite E.
    now apply trimEnd_app_white.
Qed.

Lemma trim_white (s : js_string) : white s -> trim s = [].
Proof.
  intros H. unfold trim. now rewrite trimStart_white.
Qed.

(** The pieces of a split are made of the characters of the string,
    commas left out. *)
Lemma split_comma_chars (s piece : js_string) (c : N) :
  In piece (split_comma s) -> In c piece -> In c s /\ c <> comma.
Proof.
  revert piece. induction s as [|x s IH]; simpl; intros piece Hp Hc.
  - destruct Hp as [<-|[]]. destruct Hc.
  - destruct (N.eqb x comma) eqn:Ex.
    + destruct Hp as [<-|Hp]; [destruct Hc|].
      destruct (IH _ Hp Hc). split; auto.
    + apply N.eqb_neq in Ex.
      destruct (split_comma s) as [|p ps] eqn:Es.
      * destruct Hp as [<-|[]]. destruct Hc as [<-|[]]. split; auto.
      * destruct Hp as [<-|Hp].
        -- destruct Hc as [<-|Hc]; [split; auto|].
           destruct (IH p (or_introl eq_refl) Hc). split; auto.
        -- destruct (IH piece (or_intror Hp) Hc). split; auto.
Qed.

Lemma split_comma_no_comma (s : js_string) :
  ~ In comma s -> split_comma s = [s].
Proof.
  induction s as [|x s IH]; simpl; intros H; [reflexivity|].
  destruct (N.eqb x comma) eqn:Ex.
  - apply N.eqb_eq in Ex. tauto.
  - rewrite IH by tauto. reflexivity.
Qed.

Lemma allow_origins_of_In (cors o : js_string) :
  In o (allow_origins_of cors) <->
  o <> [] /\ exists piece, In piece (split_comma cors) /\ trim piece = o.
Proof.
  unfold allow_origins_of. rewrite filter_In, in_map_iff, str_truthy_nonempty.
  split.
  - intros [(piece & E & Hp) Hne]. split; [assumption|]. now exists piece.
  - intros [Hne (piece & Hp & E)]. split; [|assumption]. now exists piece.
Qed.

Lemma allow_origins_of_blank (cors : js_string) :
  blank_list cors -> allow_origins_of cors = [].
Proof.
  unfold blank_list. intros H. destruct (allow_origins_of cors) as [|o l] eqn:E; [reflexivity|].
  exfalso.
  assert (Ho : In o (allow_origins_of cors)) by (rewrite E; now left).
  apply allow_origins_of_In in Ho. destruct Ho as (Hne & piece & Hp & <-).
  apply Hne, trim_white. apply Forall_forall. intros c Hc.
  destruct (split_comma_chars _ _ _ Hp Hc) as [Hin Hcomma].
  rewrite Forall_forall in H. destruct (H c Hin); congruence.
Qed.

(** ** CORS origin resolution *)

Lemma resolve_wildcard (allow : list js_string) (origin : js_string) :
  In (u "*") allow -> resolveAllowedOrigin allow origin = u "*".
Proof.
  intros H. destruct allow as [|first rest]; [reflexivity|].
  unfold resolveAllowedOrigin.
  now rewrite (proj2 (includes_In _ _) H).
Qed.

Lemma resolve_absent (first : js_string) (rest : list js_string) :
  ~ In (u "*") (first :: rest) ->
  resolveAllowedOrigin (first :: rest) [] = first.
Proof.
  intros H. unfold resolveAllowedOrigin.
  now rewrite (proj2 (includes_not_In _ _) H).
Qed.

Lemma resolve_member (allow : list js_string) (origin : js_string) :
  ~ In (u "*") allow -> origin <> [] -> In origin allow ->
  resolveAllowedOrigin allow origin = origin.
Proof.
  intros Hstar Hne Hin. destruct allow as [|first rest]; [destruct Hin|].
  unfold resolveAllowedOrigin.
  rewrite (proj2 (includes_not_In _ _) Hstar).
  rewrite (proj2 (str_truthy_nonempty _) Hne). simpl negb. cbv iota.
  now rewrite (proj2 (includes_In _ _) Hin).
Qed.

Lemma resolve_unlisted (first : js_string) (rest : list js_string)
    (origin : js_string) :
  ~ In (u "*") (first :: rest) -> origin <> [] -> ~ In origin (first :: rest) ->
  resolveAllowedOrigin (first :: rest) origin = first.
Proof.
  intros Hstar Hne Hin. unfold resolveAllowedOrigin.
  rewrite (proj2 (includes_not_In _ _) Hstar).
  rewrite (proj2 (str_truthy_nonempty _) Hne). simpl negb. cbv iota.
  now rewrite (proj2 (includes_not_In _ _) Hin).
Qed.

(** C3.  The origin echoed in [access-control-allow-origin], rule by
    rule: an empty allow-list gives the wildcard; so does an allow-list
    that contains the wildcard; otherwise a request without an [Origin]
    header (or with an empty one) gets the first configured origin, a
    request whose origin is listed gets its own origin back, and a request
    whose origin is not listed gets the first configured origin, which is
    not its own. *)
Theorem cors_origin_resolution (allow : list js_string) (req : request) :
  (allow = [] -> resolveAllowedOrigin allow (request_origin req) = u "*")
  /\ (In (u "*") allow ->
      resolveAllowedOrigin allow (request_origin req) = u "*")
  /\ (forall first rest, allow = first :: rest -> ~ In (u "*") allow ->
      (origin_header req = None \/ origin_header req = Some [] ->
       resolveAllowedOrigin allow (request_origin req) = first)
      /\ (forall origin, origin_header req = Some origin -> origin <> [] ->
          In origin allow ->
          resolveAllowedOrigin allow (request_origin req) = origin)
      /\ (forall origin, origin_header req = Some origin -> origin <> [] ->
          ~ In origin allow ->
          resolveAllowedOrigin allow (request_origin req) = first
          /\ resolveAllowedOrigin allow (request_origin req) <> origin)).
Proof.
  split; [|split].
  - intros ->. reflexivity.
  - apply resolve_wildcard.
  - intros first rest -> Hstar. unfold request_origin. split; [|split].
    + intros [-> | ->]; now apply resolve_absent.
    + intros origin -> Hne Hin. now apply resolve_member.
    + intros origin -> Hne Hout.
      rewrite resolve_unlisted by assumption.
      split; [reflexivity|]. intros <-. apply Hout. now left.
Qed.

(** The specification's examples: with the allow-list
    [https://a.com, https://b.com], the origin [https://b.com] is echoed
    and [https://evil.com] gets [https://a.com]. *)
Lemma cors_origin_resolution_examples :
  resolveAllowedOrigin [u "https://a.com"; u "https://b.com"]
    (request_origin
       (request_from "GET" "/endpoint-status" (Some (u "https://b.com"))))
  = u "https://b.com"
  /\ resolveAllowedOrigin [u "https://a.com"; u "https://b.com"]
       (request_origin
          (request_from "GET" "/endpoint-status" (Some (u "https://evil.com"))))
     = u "https://a.com".
Proof.
  split.
  - refine (proj1 (proj2 (proj2 (proj2 (cors_origin_resolution
              [u "https://a.com"; u "https://b.com"]
              (request_from "GET" "/endpoint-status" (Some (u "https://b.com")))))
              _ _ eq_refl _)) _ eq_refl _ _).
    + vm_compute. intuition discriminate.
    + discriminate.
    + right; left; reflexivity.
  - refine (proj1 (proj2 (proj2 (proj2 (proj2 (cors_origin_resolution
              [u "https://a.com"; u "https://b.com"]
              (request_from "GET" "/endpoint-status"
                 (Some (u "https://evil.com")))))
              _ _ eq_refl _)) _ eq_refl _ _)).
    + vm_compute. intuition discriminate.
    + discriminate.
    + vm_compute. intuition discriminate.
Defined.

(** ** The request handler *)

Lemma handler_options (s : settings) (n : node) (req : request) :
  method req = u "OPTIONS" -> handler s n req = respond_with s req 204 None.
Proof.
  intros H. unfold handler. now rewrite H.
Qed.

Lemma handler_missing_url (s : settings) (n : node) (req : request) :
  method req <> u "OPTIONS" -> url req = None \/ url req = Some [] ->
  handler s n req = respond_with s req 400 (error_body "missing_url").
Proof.
  intros Hm Hu. unfold handler.
  rewrite (proj2 (str_eqb_neq _ _) Hm).
  destruct Hu as [-> | ->]; reflexivity.
Qed.

(** Once the URL is parsed, the method is looked at before the path. *)
Lemma handler_other_method (s : settings) (n : node) (req : request)
    (target pathname : js_string) :
  method req <> u "OPTIONS" -> method req <> u "GET" ->
  url req = Some target -> target <> [] ->
  URL_pathname n target (request_base req) = Some pathname ->
  handler s n req = respond_with s req 405 (error_body "method_not_allowed").
Proof.
  intros Hm Hg Hu Hne Hp. unfold handler.
  rewrite (proj2 (str_eqb_neq _ _) Hm), Hu.
  rewrite (proj2 (str_truthy_nonempty _) Hne). simpl negb. cbv iota.
  rewrite Hp. now rewrite (proj2 (str_eqb_neq _ _) Hg).
Qed.

Lemma handler_get (s : settings) (n : node) (req : request)
    (target pathname : js_string) :
  method req = u "GET" -> url req = Some target -> target <> [] ->
  URL_pathname n target (request_base req) = Some pathname ->
  handler s n req =
    if str_eqb pathname (u "/healthz") then
      respond_with s req 200
        (Some (JObj [ (u "ok", JBool true);
                      (u "uptime_s", JNum (Math_round (process_uptime n))) ]))
    else if str_eqb pathname (u "/endpoint-status") then
      match runChecks s (probes n) with
      | Returned payload => respond_with s req 200 (Some (report_json payload))
      | Thrown err =>
          respond_with s req 500
            (Some (JObj [ (u "error", JStr (u "status_check_failed"));
                          (u "detail",
                           JStr match err with
                                | Error message => message
                                | NotAnError => u "unknown error"
                                end) ]))
      | Pending => Pending
      end
    else respond_with s req 404 (error_body "not_found").
Proof.
  intros Hm Hu Hne Hp. unfold handler.
  rewrite Hm, Hu. change (str_eqb (u "GET") (u "OPTIONS")) with false.
  rewrite (proj2 (str_truthy_nonempty _) Hne). simpl negb. cbv iota.
  rewrite Hp. change (str_eqb (u "GET") (u "GET")) with true.
  reflexivity.
Qed.

(** Every response is written with the headers of [jsonHeaders]. *)
Lemma handler_headers (s : settings) (n : node) (req : request)
    (r : http_response) :
  handler s n req = Returned r ->
  headers r = jsonHeaders (ALLOW_ORIGINS s) (request_origin req).
Proof.
  unfold handler.
  repeat match goal with
         | |- context [match ?x with _ => _ end] => destruct x
         end;
    intros H; try discriminate; injection H as <-; reflexivity.
Qed.

Lemma Math_round_nonneg (x : Q) : (0 <= x)%Q -> 0 <= Math_round x.
Proof.
  intros H. unfold Math_round.
  change 0 with (Qfloor 0). apply Qfloor_resp_le.
  apply Qle_trans with x; [assumption|].
  rewrite <- (Qplus_0_r x) at 1. apply Qplus_le_r. discriminate.
Qed.

Lemma Math_round_nearest (x : Q) :
  (inject_Z (Math_round x) - (1 # 2) <= x)%Q
  /\ (x < inject_Z (Math_round x) + (1 # 2))%Q.
Proof.
  unfold Math_round. split.
  - apply Qplus_le_l with (z := 1 # 2).
    setoid_replace (inject_Z (Qfloor (x + (1 # 2))) - (1 # 2) + (1 # 2))%Q
      with (inject_Z (Qfloor (x + (1 # 2)))) by ring.
    apply Qfloor_le.
  - apply Qplus_lt_l with (z := 1 # 2).
    setoid_replace (inject_Z (Qfloor (x + (1 # 2))) + (1 # 2) + (1 # 2))%Q
      with (inject_Z (Qfloor (x + (1 # 2)) + 1)).
    + apply Qlt_floor.
    + rewrite inject_Z_plus. ring.
Qed.

(** C7.  [GET /healthz] is answered with 200 and the body
    [{ok: true, uptime_s: n}], where [n] is the process uptime rounded to
    the nearest second, a non-negative integer; the answer does not
    depend on the world the probes run in. *)
Theorem healthz_always_ok (s : settings) (n : node) (req : request)
    (target : js_string) :
  method req = u "GET" -> url req = Some target -> target <> [] ->
  URL_pathname n target (request_base req) = Some (u "/healthz") ->
  (0 <= process_uptime n)%Q ->
  (forall w : world,
     handler s {| URL_pathname := URL_pathname n;
                  process_uptime := process_uptime n;
                  probes := w |} req
     = respond_with s req 200
         (Some (JObj [ (u "ok", JBool true);
                       (u "uptime_s", JNum (Math_round (process_uptime n))) ])))
  /\ 0 <= Math_round (process_uptime n)
  /\ (inject_Z (Math_round (process_uptime n)) - (1 # 2) <= process_uptime n)%Q
  /\ (process_uptime n < inject_Z (Math_round (process_uptime n)) + (1 # 2))%Q.
Proof.
  intros Hm Hu Hne Hp Hup. split; [|split].
  - intros w.
    rewrite (handler_get s _ req target (u "/healthz")); auto.
  - now apply Math_round_nonneg.
  - apply Math_round_nearest.
Qed.

Lemma healthz_always_ok_example :
  handler default_settings example_node (request_from "GET" "/healthz?probe=1" None)
  = respond_with default_settings (request_from "GET" "/healthz?probe=1" None) 200
      (Some (JObj [(u "ok", JBool true); (u "uptime_s", JNum 3)])).
Proof.
  exact (proj1 (healthz_always_ok default_settings example_node
                  (request_from "GET" "/healthz?probe=1" None)
                  (u "/healthz?probe=1")
                  eq_refl eq_refl ltac:(discriminate) eq_refl ltac:(discriminate))
           mixed_world).
Defined.

(** C8, as the handler has it.  A GET request whose path is neither
    [/healthz] nor [/endpoint-status] is answered with 404 and
    [{error: not_found}]; a request whose method is neither GET nor
    OPTIONS is answered with 405 and [{error: method_not_allowed}],
    whatever its path.  (Both for a request whose URL is present and
    parses.) *)
Theorem routing_errors (s : settings) (n : node) (req : request)
    (target pathname : js_string) :
  url req = Some target -> target <> [] ->
  URL_pathname n target (request_base req) = Some pathname ->
  (method req = u "GET" ->
   pathname <> u "/healthz" -> pathname <> u "/endpoint-status" ->
   handler s n req = respond_with s req 404 (error_body "not_found"))
  /\ (method req <> u "GET" -> method req <> u "OPTIONS" ->
      handler s n req = respond_with s req 405 (error_body "method_not_allowed")).
Proof.
  intros Hu Hne Hp. split.
  - intros Hm H1 H2. rewrite (handler_get s n req target pathname) by assumption.
    apply str_eqb_neq in H1, H2. now rewrite H1, H2.
  - intros Hg Ho. now apply (handler_other_method s n req target pathname).
Qed.

Lemma routing_errors_example :
  handler default_settings example_node (request_from "GET" "/unknown-path" None)
  = respond_with default_settings (request_from "GET" "/unknown-path" None) 404
      (error_body "not_found")
  /\ handler default_settings example_node
       (request_from "POST" "/endpoint-status" None)
     = respond_with default_settings
         (request_from "POST" "/endpoint-status" None) 405
         (error_body "method_not_allowed").
Proof.
  split.
  - refine (proj1 (routing_errors default_settings example_node
                     (request_from "GET" "/unknown-path" None)
                     (u "/unknown-path") (u "/unknown-path")
                     eq_refl _ eq_refl) eq_refl _ _); discriminate.
  - refine (proj2 (routing_errors default_settings example_node
                     (request_from "POST" "/endpoint-status" None)
                     (u "/endpoint-status") (u "/endpoint-status")
                     eq_refl _ eq_refl) _ _); discriminate.
Defined.

(** C8 as stated fails twice: a POST to a path that matches no route is
    answered with 405, not 404, and OPTIONS, which is not GET, on a known
    path is answered with 204, not 405. *)
Lemma unknown_path_post_is_405_and_options_is_204 :
  handler default_settings example_node (request_from "POST" "/unknown-path" None)
  = respond_with default_settings (request_from "POST" "/unknown-path" None) 405
      (error_body "method_not_allowed")
  /\ handler default_settings example_node (request_from "OPTIONS" "/healthz" None)
     = respond_with default_settings (request_from "OPTIONS" "/healthz" None) 204
         None.
Proof.
  split; vm_compute; reflexivity.
Qed.

(** C9, as the handler has it.  OPTIONS is answered with 204 and no body
    before the URL is looked at: whether it is missing, or rejected by
    the URL parser, makes no difference.  For any other method the URL
    comes first: a missing URL is answered with 400; once the URL is
    present and parses, every method other than GET is answered with 405
    and [{error: method_not_allowed}] for every path, known or not. *)
Theorem method_checked_before_path (s : settings) (n : node) (req : request) :
  (method req = u "OPTIONS" -> handler s n req = respond_with s req 204 None)
  /\ (method req <> u "OPTIONS" -> url req = None \/ url req = Some [] ->
      handler s n req = respond_with s req 400 (error_body "missing_url"))
  /\ (method req <> u "OPTIONS" -> method req <> u "GET" ->
      forall target pathname,
        url req = Some target -> target <> [] ->
        URL_pathname n target (request_base req) = Some pathname ->
        handler s n req
        = respond_with s req 405 (error_body "method_not_allowed")).
Proof.
  split; [|split].
  - apply handler_options.
  - apply handler_missing_url.
  - intros Ho Hg target pathname Hu Hne Hp.
    now apply (handler_other_method s n req target pathname).
Qed.

Lemma method_checked_before_path_example :
  handler default_settings example_node (request_from "DELETE" "/no/such/route" None)
  = respond_with default_settings (request_from "DELETE" "/no/such/route" None) 405
      (error_body "method_not_allowed").
Proof.
  refine (proj2 (proj2 (method_checked_before_path default_settings example_node
                          (request_from "DELETE" "/no/such/route" None)))
            _ _ (u "/no/such/route") (u "/no/such/route") eq_refl _ eq_refl);
    discriminate.
Defined.

(** C9 as stated fails for a request without a URL: a POST whose URL is
    missing is answered with 400, and one whose URL the parser rejects is
    not answered at all, the handler throws. *)
Lemma post_without_url_is_400 :
  handler default_settings example_node
    {| method := u "POST"; url := None;
       host_header := None; origin_header := None |}
  = Returned {| code := 400;
                headers := jsonHeaders [u "https://foxxone.one"] [];
                body := Some (JObj [(u "error", JStr (u "missing_url"))]) |}
  /\ handler default_settings example_node (request_from "POST" "//" None)
     = Thrown (Error (u "Invalid URL")).
Proof.
  split; vm_compute; reflexivity.
Qed.

(** ** Objects *)

Lemma obj_set_fresh {V : Type} (k : js_string) (v : V) (o : js_object V) :
  ~ In k (map fst o) -> obj_set k v o = o ++ [(k, v)].
Proof.
  induction o as [|[k' v'] o IH]; simpl; intros H; [reflexivity|].
  destruct (str_eqb k k') eqn:E.
  - apply str_eqb_spec in E. subst. tauto.
  - rewrite IH by tauto. reflexivity.
Qed.

Lemma obj_get_set_same {V : Type} (k : js_string) (v : V) (o : js_object V) :
  obj_get k (obj_set k v o) = Some v.
Proof.
  unfold obj_get. induction o as [|[k' v'] o IH]; simpl.
  - now rewrite str_eqb_refl.
  - destruct (str_eqb k k') eqn:E; simpl; rewrite E; [reflexivity | exact IH].
Qed.

Lemma obj_get_set_other {V : Type} (k k' : js_string) (v : V) (o : js_object V) :
  k <> k' -> obj_get k (obj_set k' v o) = obj_get k o.
Proof.
  intros Hne. unfold obj_get. induction o as [|[k'' v''] o IH]; simpl.
  - now rewrite (proj2 (str_eqb_neq _ _) Hne).
  - destruct (str_eqb k' k'') eqn:E; simpl.
    + apply str_eqb_spec in E. subst k''.
      now rewrite (proj2 (str_eqb_neq _ _) Hne).
    + now rewrite IH.
Qed.

(** When no key is an array index, the properties are visited in
    creation order. *)
Lemma own_entries_plain {V : Type} (o : js_object V) :
  (forall k, In k (map fst o) -> is_array_index k = false) ->
  own_entries o = o.
Proof.
  intros H. unfold own_entries.
  assert (Hi : index_entries o = []).
  { induction o as [|[k v] o IH]; simpl; [reflexivity|].
    pose proof (H k (or_introl eq_refl)) as Hk. unfold is_array_index in Hk.
    destruct (array_index k); [discriminate|].
    apply IH. intros k' Hk'. apply H. now right. }
  rewrite Hi. simpl.
  induction o as [|[k v] o IH]; simpl; [reflexivity|].
  rewrite (H k (or_introl eq_refl)). simpl. f_equal.
  apply IH.
  - intros k' Hk'. apply H. now right.
  - simpl in Hi. destruct (array_index k) eqn:E.
    + pose proof (H k (or_introl eq_refl)) as Hk. unfold is_array_index in Hk.
      rewrite E in Hk. discriminate.
    + exact Hi.
Qed.

(** ** The loop of runChecks *)

Lemma check_entry_cases (timeout : Z) (io : platform) (c : check) :
  (exists latencyMs, probe timeout io c = Returned latencyMs
                     /\ check_entry timeout io c = Returned (up latencyMs))
  \/ (exists err, probe timeout io c = Thrown err
                  /\ check_entry timeout io c = Returned (down err))
  \/ (probe timeout io c = Pending /\ check_entry timeout io c = Pending).
Proof.
  unfold check_entry. destruct (probe timeout io c) as [l|e|].
  - left. now exists l.
  - right; left. now exists e.
  - right; right. now split.
Qed.

(** Nothing thrown by a probe leaves the loop. *)
Lemma for_each_check_never_throws (timeout : Z) (w : world)
    (checks : list check) (i : nat) (acc : js_object outcome) (e : thrown) :
  for_each_check timeout w i checks acc <> Thrown e.
Proof.
  revert i acc. induction checks as [|c rest IH]; simpl; intros i acc.
  - discriminate.
  - destruct (check_entry_cases timeout (during w i) c)
      as [(l & _ & ->) | [(err & _ & ->) | [_ ->]]]; simpl;
      try apply IH; discriminate.
Qed.

(** The loop waits for ever only when some probe does. *)
Lemma for_each_check_pending (timeout : Z) (w : world)
    (checks : list check) (i : nat) (acc : js_object outcome) :
  for_each_check timeout w i checks acc = Pending ->
  exists k c, nth_error checks k = Some c
              /\ probe timeout (during w (i + k)) c = Pending.
Proof.
  revert i acc. induction checks as [|c rest IH]; simpl; intros i acc H.
  - discriminate.
  - destruct (check_entry_cases timeout (during w i) c)
      as [(l & _ & E) | [(err & _ & E) | [Hp _]]].
    + rewrite E in H. simpl in H. apply IH in H. destruct H as (k & c' & Hn & Hp).
      exists (S k), c'. split; [exact Hn|]. now rewrite Nat.add_succ_r.
    + rewrite E in H. simpl in H. apply IH in H. destruct H as (k & c' & Hn & Hp).
      exists (S k), c'. split; [exact Hn|]. now rewrite Nat.add_succ_r.
    + exists 0%nat, c. split; [reflexivity|]. now rewrite Nat.add_0_r.
Qed.

(** When the loop returns, every iteration has produced its entry. *)
Lemma for_each_check_all_returned (timeout : Z) (w : world)
    (checks : list check) (i : nat) (acc r : js_object outcome) :
  for_each_check timeout w i checks acc = Returned r ->
  forall k c, nth_error checks k = Some c ->
    exists entry, check_entry timeout (during w (i + k)) c = Returned entry.
Proof.
  revert i acc. induction checks as [|c0 rest IH]; simpl; intros i acc H k c Hn.
  - destruct k; discriminate.
  - destruct (check_entry timeout (during w i) c0) as [e0| |] eqn:E;
      simpl in H; try discriminate.
    destruct k as [|k]; simpl in Hn.
    + injection Hn as <-. rewrite Nat.add_0_r. now exists e0.
    + destruct (IH _ _ H k c Hn) as [entry He]. exists entry.
      now rewrite <- Nat.add_succ_comm.
Qed.

(** The keys after the loop: those before it, then one per check, in
    registry order. *)
Lemma for_each_check_keys (timeout : Z) (w : world) (checks : list check)
    (i : nat) (acc r : js_object outcome) :
  for_each_check timeout w i checks acc = Returned r ->
  NoDup (map fst acc ++ map id checks) ->
  map fst r = map fst acc ++ map id checks.
Proof.
  revert i acc. induction checks as [|c rest IH]; simpl; intros i acc H Hnd.
  - injection H as <-. now rewrite app_nil_r.
  - destruct (check_entry timeout (during w i) c) as [entry| |]; simpl in H;
      try discriminate.
    assert (Hfresh : ~ In (id c) (map fst acc)).
    { intros Hin. apply NoDup_remove_2 in Hnd. apply Hnd.
      apply in_or_app. now left. }
    apply IH in H.
    + rewrite H, obj_set_fresh by assumption.
      rewrite map_app. simpl. now rewrite <- app_assoc.
    + rewrite obj_set_fresh by assumption.
      rewrite map_app. simpl. now rewrite <- app_assoc.
Qed.

(** A key that no later check writes keeps its value. *)
Lemma for_each_check_frame (timeout : Z) (w : world) (checks : list check)
    (i : nat) (acc r : js_object outcome) (key : js_string) :
  for_each_check timeout w i checks acc = Returned r ->
  ~ In key (map id checks) ->
  obj_get key r = obj_get key acc.
Proof.
  revert i acc. induction checks as [|c rest IH]; simpl; intros i acc H Hk.
  - now injection H as <-.
  - destruct (check_entry timeout (during w i) c) as [entry| |]; simpl in H;
      try discriminate.
    apply IH in H; [|tauto].
    rewrite H. apply obj_get_set_other. intros ->. tauto.
Qed.

(** The value under a check's id is the entry of that check's own
    iteration. *)
Lemma for_each_check_entry (timeout : Z) (w : world) (checks : list check)
    (i : nat) (acc r : js_object outcome) :
  for_each_check timeout w i checks acc = Returned r ->
  NoDup (map id checks) ->
  forall k c entry,
    nth_error checks k = Some c ->
    check_entry timeout (during w (i + k)) c = Returned entry ->
    obj_get (id c) r = Some entry.
Proof.
  revert i acc. induction checks as [|c rest IH]; simpl; intros i acc H Hnd.
  - intros [|k] c entry Hn; discriminate.
  - inversion Hnd as [|? ? Hout Hnd']; subst.
    intros [|k] c' entry Hn He; simpl in Hn.
    + injection Hn as <-. rewrite Nat.add_0_r in He. rewrite He in H.
      simpl in H.
      rewrite (for_each_check_frame _ _ _ _ _ _ _ H Hout).
      apply obj_get_set_same.
    + destruct (check_entry timeout (during w i) c) as [e0| |]; simpl in H;
        try discriminate.
      apply (IH _ _ H Hnd' k c' entry Hn).
      now rewrite Nat.add_succ_comm.
Qed.

(** ** Timeouts *)

Lemma withTimeout_unsettled {A : Type} (p : promise A) (timeout : Z) :
  unsettled_after p (timer_delay timeout) ->
  await (withTimeout p timeout)
  = Thrown (Error (u "timeout after " ++ num_to_string timeout ++ u "ms")).
Proof.
  intros Hp. unfold withTimeout. destruct p as [d s|]; [|reflexivity].
  simpl in Hp.
  assert ((d <=? timer_delay timeout) = false) as Hd by (apply Z.leb_gt; lia).
  now rewrite Hd.
Qed.

(** The race always settles: awaiting it never waits for ever. *)
Lemma withTimeout_settles {A : Type} (p : promise A) (timeout : Z) :
  await (withTimeout p timeout) <> Pending.
Proof.
  unfold withTimeout. destruct p as [d s|]; [|discriminate].
  destruct (d <=? timer_delay timeout); [|discriminate].
  destruct s; discriminate.
Qed.

(** A probe whose guarded operation has not settled when the timer
    fires is reported [DOWN] with the timeout message. *)
Lemma probe_times_out (timeout : Z) (io : platform) (c : check) :
  guarded_operation_unsettled io c (timer_delay timeout) ->
  check_entry timeout io c = Returned (timed_out timeout).
Proof.
  intros H. unfold check_entry, probe, guarded_operation_unsettled in *.
  destruct (kind c) as [url|url|host port];
    unfold probeJsonRpc, probeTendermintStatus, probeTcp;
    rewrite (withTimeout_unsettled _ _ H); reflexivity.
Qed.

(** ** Probe results *)

(** A probe that returns, returns the difference of the two clock
    readings. *)
Lemma probe_latency (timeout : Z) (io : platform) (c : check) (latencyMs : Z) :
  probe timeout io c = Returned latencyMs ->
  latencyMs = now_on_return io - now_on_entry io.
Proof.
  unfold probe.
  destruct (kind c) as [url|url|host port];
    unfold probeJsonRpc, probeTendermintStatus, probeTcp.
  - destruct (await (withTimeout _ timeout)) as [res|e|]; simpl;
      try discriminate.
    destruct (res_ok res); simpl; try discriminate.
    destruct (await (res_json res)) as [data|e|]; simpl; try discriminate.
    destruct (get_prop data (u "error")) as [error|];
      [destruct (truthy error)|]; intros H; try discriminate;
      now injection H.
  - destruct (await (withTimeout _ timeout)) as [res|e|]; simpl;
      try discriminate.
    destruct (res_ok res); simpl; intros H; try discriminate.
    now injection H.
  - destruct (await (withTimeout _ timeout)) as [b|e|]; simpl;
      intros H; try discriminate.
    now injection H.
Qed.

(** Only the body of a JSON-RPC response can keep a probe waiting. *)
Lemma probe_pending (timeout : Z) (io : platform) (c : check) :
  probe timeout io c = Pending ->
  exists url res,
    kind c = jsonrpc url
    /\ await (withTimeout (fetch io url (Some jsonrpc_init)) timeout)
       = Returned res
    /\ res_ok res = true
    /\ res_json res = NeverSettles.
Proof.
  unfold probe.
  destruct (kind c) as [url|url|host port];
    unfold probeJsonRpc, probeTendermintStatus, probeTcp.
  - destruct (await (withTimeout _ timeout)) as [res|e|] eqn:E; simpl;
      try discriminate.
    + destruct (res_ok res) eqn:Hok; simpl; try discriminate.
      destruct (res_json res) as [d [data|e]|] eqn:Hj; simpl.
      * destruct (get_prop data (u "error")) as [error|];
          [destruct (truthy error)|]; discriminate.
      * discriminate.
      * intros _. exists url, res. auto.
    + now apply withTimeout_settles in E.
  - destruct (await (withTimeout _ timeout)) as [res|e|] eqn:E; simpl;
      try discriminate.
    + destruct (res_ok res); discriminate.
    + now apply withTimeout_settles in E.
  - destruct (await (withTimeout _ timeout)) as [b|e|] eqn:E; simpl;
      try discriminate.
    now apply withTimeout_settles in E.
Qed.

(** The JSON-RPC probe once the response and its parsed body are there. *)
Lemma probeJsonRpc_with_body (timeout : Z) (io : platform) (url : js_string)
    (res : response) (d : Z) (data : json) :
  await (withTimeout (fetch io url (Some jsonrpc_init)) timeout) = Returned res ->
  res_ok res = true ->
  res_json res = Settles d (Fulfilled data) ->
  probeJsonRpc timeout io url
  = match rpc_error data with
    | Some error => Thrown (json_rpc_error error)
    | None => Returned (now_on_return io - now_on_entry io)
    end.
Proof.
  intros Hf Hok Hj. unfold probeJsonRpc, rpc_error.
  rewrite Hf. simpl. rewrite Hok, Hj. simpl.
  destruct (get_prop data (u "error")) as [error|];
    [destruct (truthy error)|]; reflexivity.
Qed.

(** The JSON-RPC probe returns only in that situation, and only without
    an error to act on. *)
Lemma probeJsonRpc_returned (timeout : Z) (io : platform) (url : js_string)
    (latencyMs : Z) :
  probeJsonRpc timeout io url = Returned latencyMs ->
  exists res d data,
    await (withTimeout (fetch io url (Some jsonrpc_init)) timeout) = Returned res
    /\ res_ok res = true
    /\ res_json res = Settles d (Fulfilled data)
    /\ rpc_error data = None.
Proof.
  unfold probeJsonRpc, rpc_error.
  destruct (await (withTimeout _ timeout)) as [res|e|]; simpl;
    try discriminate.
  destruct (res_ok res) eqn:Hok; simpl; try discriminate.
  destruct (res_json res) as [d [data|e]|] eqn:Hj; simpl; try discriminate.
  intros H. exists res, d, data. repeat split; try assumption.
  destruct (get_prop data (u "error")) as [error|];
    [destruct (truthy error)|]; try reflexivity; discriminate.
Qed.

Lemma json_rpc_error_message (error : json) (m : js_string) :
  get_prop error (u "message") = Some (JStr m) -> m <> [] ->
  json_rpc_error error = Error m.
Proof.
  intros H Hne. unfold json_rpc_error. rewrite H. simpl.
  now rewrite (proj2 (str_truthy_nonempty _) Hne).
Qed.

Lemma json_rpc_error_fallback (error : json) :
  get_prop error (u "message") = None
  \/ (exists m, get_prop error (u "message") = Some m /\ truthy m = false) ->
  json_rpc_error error = Error (u "json-rpc error").
Proof.
  unfold json_rpc_error. intros [-> | (m & -> & ->)]; reflexivity.
Qed.

(** ** The registry *)

Lemma CHECKS_ids (s : settings) : map id (CHECKS s) = registry_ids.
Proof. reflexivity. Qed.

Lemma registry_ids_NoDup : NoDup registry_ids.
Proof.
  unfold registry_ids.
  repeat (constructor; [vm_compute; intuition discriminate|]).
  constructor.
Qed.

Lemma registry_ids_plain (k : js_string) :
  In k registry_ids -> is_array_index k = false.
Proof.
  unfold registry_ids. simpl.
  intros H; repeat (destruct H as [<-|H]; [reflexivity|]); destruct H.
Qed.

(** ** runChecks *)

Lemma run_checks_never_throws (timeout : Z) (checks : list check) (w : world)
    (e : thrown) :
  run_checks timeout checks w <> Thrown e.
Proof.
  unfold run_checks.
  destruct (for_each_check timeout w 0 checks []) as [r|e'|] eqn:E; simpl;
    try discriminate.
  now apply for_each_check_never_throws in E.
Qed.

Lemma run_checks_returned (timeout : Z) (checks : list check) (w : world)
    (r : report) :
  run_checks timeout checks w = Returned r ->
  for_each_check timeout w 0 checks [] = Returned (statuses r)
  /\ checked_at r = iso_time w /\ source r = u "server".
Proof.
  unfold run_checks.
  destruct (for_each_check timeout w 0 checks []) as [st|e|]; simpl;
    intros H; try discriminate.
  injection H as <-. simpl. auto.
Qed.

Lemma run_checks_pending (timeout : Z) (checks : list check) (w : world) :
  run_checks timeout checks w = Pending ->
  exists k c, nth_error checks k = Some c
              /\ probe timeout (during w k) c = Pending.
Proof.
  unfold run_checks.
  destruct (for_each_check timeout w 0 checks []) as [st|e|] eqn:E; simpl;
    intros H; try discriminate.
  now apply for_each_check_pending in E.
Qed.

Lemma run_checks_returns (timeout : Z) (checks : list check) (w : world) :
  (forall k c, nth_error checks k = Some c ->
               probe timeout (during w k) c <> Pending) ->
  exists r, run_checks timeout checks w = Returned r.
Proof.
  intros H.
  destruct (run_checks timeout checks w) as [r|e|] eqn:E.
  - now exists r.
  - now apply run_checks_never_throws in E.
  - apply run_checks_pending in E. destruct E as (k & c & Hn & Hp).
    now apply H in Hp.
Qed.

(** For a registry whose ids are distinct and none of which is an array
    index, the keys of [statuses] are the ids, in registry order. *)
Lemma run_checks_keys (timeout : Z) (checks : list check) (w : world)
    (r : report) :
  run_checks timeout checks w = Returned r ->
  NoDup (map id checks) ->
  (forall k, In k (map id checks) -> is_array_index k = false) ->
  own_keys (statuses r) = map id checks.
Proof.
  intros H Hnd Hplain. apply run_checks_returned in H. destruct H as [H _].
  apply for_each_check_keys in H; [|exact Hnd]. simpl in H.
  unfold own_keys. rewrite own_entries_plain; [exact H|].
  rewrite H. exact Hplain.
Qed.

(** C1.  Whatever the settings and whatever the probes meet, [runChecks]
    never throws, and the [statuses] object it returns has exactly the
    registry ids as keys, each once, in registry order.  (It fails to
    return only when the body of a JSON-RPC response never arrives, the
    one wait no timeout guards.) *)
Theorem runChecks_one_entry_per_check (s : settings) (w : world) :
  match runChecks s w with
  | Returned r =>
      own_keys (statuses r) = map id (CHECKS s)
      /\ own_keys (statuses r) = registry_ids
      /\ NoDup (own_keys (statuses r))
  | Thrown _ => False
  | Pending =>
      exists k c url res,
        nth_error (CHECKS s) k = Some c
        /\ kind c = jsonrpc url
        /\ await (withTimeout (fetch (during w k) url (Some jsonrpc_init))
                    (REQUEST_TIMEOUT_MS s)) = Returned res
        /\ res_json res = NeverSettles
  end.
Proof.
  unfold runChecks.
  destruct (run_checks (REQUEST_TIMEOUT_MS s) (CHECKS s) w) as [r|e|] eqn:E.
  - assert (K : own_keys (statuses r) = map id (CHECKS s)).
    { apply (run_checks_keys _ _ _ _ E); rewrite CHECKS_ids.
      - exact registry_ids_NoDup.
      - exact registry_ids_plain. }
    rewrite K, CHECKS_ids. repeat split. exact registry_ids_NoDup.
  - now apply run_checks_never_throws in E.
  - apply run_checks_pending in E. destruct E as (k & c & Hn & Hp).
    apply probe_pending in Hp. destruct Hp as (url & res & Hk & Hf & _ & Hj).
    now exists k, c, url, res.
Qed.

(** C5.  For a registry with distinct ids: no failure of a probe leaves
    [runChecks]; as long as no probe waits for ever it returns, and the
    entry under each check's id is [UP] with the latency its own probe
    returned, or [DOWN] with what its own probe threw; two runs in which
    one check meets the same platform give that check the same entry,
    whatever the other checks meet. *)
Theorem checks_are_independent (timeout : Z) (checks : list check) :
  NoDup (map id checks) ->
  (forall w e, run_checks timeout checks w <> Thrown e)
  /\ (forall w,
        (forall k c, nth_error checks k = Some c ->
                     probe timeout (during w k) c <> Pending) ->
        exists r, run_checks timeout checks w = Returned r
          /\ forall k c, nth_error checks k = Some c ->
               (forall latencyMs,
                  probe timeout (during w k) c = Returned latencyMs ->
                  obj_get (id c) (statuses r) = Some (up latencyMs))
               /\ (forall err,
                     probe timeout (during w k) c = Thrown err ->
                     obj_get (id c) (statuses r) = Some (down err)))
  /\ (forall w1 w2 r1 r2 k c,
        run_checks timeout checks w1 = Returned r1 ->
        run_checks timeout checks w2 = Returned r2 ->
        nth_error checks k = Some c ->
        during w1 k = during w2 k ->
        obj_get (id c) (statuses r1) = obj_get (id c) (statuses r2)).
Proof.
  intros Hnd. split; [|split].
  - intros w e. apply run_checks_never_throws.
  - intros w Hlive. destruct (run_checks_returns _ _ _ Hlive) as [r Hr].
    exists r. split; [exact Hr|].
    apply run_checks_returned in Hr. destruct Hr as [Hr _].
    intros k c Hn. split.
    + intros l Hp. apply (for_each_check_entry _ _ _ _ _ _ Hr Hnd k c _ Hn).
      simpl. unfold check_entry. now rewrite Hp.
    + intros err Hp. apply (for_each_check_entry _ _ _ _ _ _ Hr Hnd k c _ Hn).
      simpl. unfold check_entry. now rewrite Hp.
  - intros w1 w2 r1 r2 k c H1 H2 Hn Hsame.
    apply run_checks_returned in H1, H2.
    destruct H1 as [H1 _], H2 as [H2 _].
    destruct (for_each_check_all_returned _ _ _ _ _ _ H1 k c Hn) as [entry E].
    simpl in E.
    rewrite (for_each_check_entry _ _ _ _ _ _ H1 Hnd k c entry Hn E).
    rewrite Hsame in E.
    now rewrite (for_each_check_entry _ _ _ _ _ _ H2 Hnd k c entry Hn E).
Qed.

Lemma mixed_world_settles (k : nat) (c : check) :
  nth_error (CHECKS default_settings) k = Some c ->
  probe 7000 (during mixed_world k) c <> Pending.
Proof.
  do 6 (destruct k as [|k]; [intros H; injection H as <-; discriminate|]).
  destruct k; discriminate.
Qed.

(** In the mixed world the first check is up and the second and third
    are down, each for its own reason. *)
Lemma checks_are_independent_example :
  exists r, run_checks 7000 (CHECKS default_settings) mixed_world = Returned r
    /\ obj_get (u "infinite-evm") (statuses r) = Some (up 42)
    /\ obj_get (u "infinite-comet") (statuses r)
       = Some (down (Error (u "fetch failed")))
    /\ obj_get (u "infinite-grpc") (statuses r) = Some (timed_out 7000).
Proof.
  destruct (proj1 (proj2 (checks_are_independent 7000 (CHECKS default_settings)
                            registry_ids_NoDup))
              mixed_world mixed_world_settles) as (r & Hr & Hentries).
  exists r. split; [exact Hr|]. split; [|split].
  - exact (proj1 (Hentries 0%nat _ eq_refl) 42 eq_refl).
  - exact (proj2 (Hentries 1%nat _ eq_refl) _ eq_refl).
  - exact (proj2 (Hentries 2%nat _ eq_refl) _ eq_refl).
Defined.

(** C6, as the code has it.  A probe that returns gives the entry
    [UP] with [latency_ms] the integer difference between the wall-clock
    reading before returning and the one on entry, and with detail
    [Latency <latency_ms>ms]; the latency is non-negative whenever the
    clock has not been set back in between.  A probe that throws gives
    the entry [DOWN] with [latency_ms] null and, as detail, the message
    of the error thrown, or [request failed] when what was thrown is not
    an error. *)
Theorem entry_of_probe_outcome (timeout : Z) (io : platform) (c : check) :
  (forall latencyMs,
     probe timeout io c = Returned latencyMs ->
     check_entry timeout io c
     = Returned {| status := u "UP";
                   detail := u "Latency " ++ num_to_string latencyMs ++ u "ms";
                   latency_ms := Some latencyMs |}
     /\ latencyMs = now_on_return io - now_on_entry io
     /\ (now_on_entry io <= now_on_return io -> 0 <= latencyMs))
  /\ (forall message,
        probe timeout io c = Thrown (Error message) ->
        check_entry timeout io c
        = Returned {| status := u "DOWN";
                      detail := message;
                      latency_ms := None |})
  /\ (probe timeout io c = Thrown NotAnError ->
      check_entry timeout io c
      = Returned {| status := u "DOWN";
                    detail := u "request failed";
                    latency_ms := None |}).
Proof.
  split; [|split].
  - intros l H. split; [|split].
    + unfold check_entry. now rewrite H.
    + now apply probe_latency in H.
    + apply probe_latency in H. lia.
  - intros message H. unfold check_entry. now rewrite H.
  - intros H. unfold check_entry. now rewrite H.
Qed.

Lemma entry_of_probe_outcome_example :
  check_entry 7000 healthy grpc_check
  = Returned {| status := u "UP";
                detail := u "Latency 42ms";
                latency_ms := Some 42 |}
  /\ check_entry 7000 refusing grpc_check
     = Returned {| status := u "DOWN";
                   detail := u "connect ECONNREFUSED 127.0.0.1:443";
                   latency_ms := None |}.
Proof.
  split.
  - exact (proj1 (proj1 (entry_of_probe_outcome 7000 healthy grpc_check)
                    42 eq_refl)).
  - exact (proj1 (proj2 (entry_of_probe_outcome 7000 refusing grpc_check))
             _ eq_refl).
Defined.

(** C6 as stated fails when the wall clock is set back during a probe:
    the entry is [UP] with a negative latency. *)
Lemma latency_is_negative_when_clock_is_set_back :
  check_entry 7000 clock_set_back grpc_check
  = Returned {| status := u "UP";
                detail := u "Latency -970ms";
                latency_ms := Some (-970) |}.
Proof.
  vm_compute. reflexivity.
Qed.

(** C4, as the code has it.  Once the response has arrived in time with
    a success status and its body has been parsed: when [data.error] is
    truthy the entry is [DOWN], with the error's [message] as detail when
    that is a non-empty string and [json-rpc error] when the error has no
    message or a falsy one; when [data.error] is absent or falsy the
    entry is [UP].  And the entry of a JSON-RPC check is [UP] only in
    that situation: response in time, success status, body parsed, no
    truthy [error]. *)
Theorem jsonrpc_error_field (timeout : Z) (io : platform)
    (name url : js_string) :
  (forall res d data,
     await (withTimeout (fetch io url (Some jsonrpc_init)) timeout) = Returned res ->
     res_ok res = true ->
     res_json res = Settles d (Fulfilled data) ->
     (forall error,
        rpc_error data = Some error ->
        check_entry timeout io {| id := name; kind := jsonrpc url |}
        = Returned (down (json_rpc_error error))
        /\ (forall m, get_prop error (u "message") = Some (JStr m) -> m <> [] ->
            down (json_rpc_error error)
            = {| status := u "DOWN"; detail := m; latency_ms := None |})
        /\ (get_prop error (u "message") = None
            \/ (exists m, get_prop error (u "message") = Some m
                          /\ truthy m = false) ->
            down (json_rpc_error error)
            = {| status := u "DOWN"; detail := u "json-rpc error";
                 latency_ms := None |}))
     /\ (rpc_error data = None ->
         check_entry timeout io {| id := name; kind := jsonrpc url |}
         = Returned (up (now_on_return io - now_on_entry io))))
  /\ (forall latencyMs,
        check_entry timeout io {| id := name; kind := jsonrpc url |}
        = Returned (up latencyMs) ->
        exists res d data,
          await (withTimeout (fetch io url (Some jsonrpc_init)) timeout)
          = Returned res
          /\ res_ok res = true
          /\ res_json res = Settles d (Fulfilled data)
          /\ rpc_error data = None).
Proof.
  split.
  - intros res d data Hf Hok Hj.
    pose proof (probeJsonRpc_with_body timeout io url res d data Hf Hok Hj) as P.
    split.
    + intros error He. rewrite He in P. split; [|split].
      * unfold check_entry, probe. simpl. now rewrite P.
      * intros m Hm Hne. now rewrite (json_rpc_error_message error m).
      * intros Hm. now rewrite json_rpc_error_fallback.
    + intros He. rewrite He in P. unfold check_entry, probe. simpl.
      now rewrite P.
  - intros l H. unfold check_entry, probe in H. simpl in H.
    destruct (probeJsonRpc timeout io url) as [l'|e|] eqn:E.
    + now apply probeJsonRpc_returned in E.
    + exfalso. unfold up, down in H. discriminate.
    + discriminate.
Qed.

Lemma jsonrpc_error_field_example :
  check_entry 7000 method_not_found evm_check
  = Returned (down (json_rpc_error
                      (JObj [ (u "code", JNum (-32601));
                              (u "message", JStr (u "Method not found")) ])))
  /\ down (json_rpc_error
             (JObj [ (u "code", JNum (-32601));
                     (u "message", JStr (u "Method not found")) ]))
     = {| status := u "DOWN"; detail := u "Method not found";
          latency_ms := None |}.
Proof.
  pose proof (proj1 (proj1 (jsonrpc_error_field 7000 method_not_found
                              (u "infinite-evm")
                              (u "https://evm-rpc.infinitedrive.xyz"))
                       _ 2 _ eq_refl eq_refl eq_refl) _ eq_refl) as H.
  split.
  - exact (proj1 H).
  - refine (proj1 (proj2 H) _ eq_refl _). discriminate.
Defined.

(** C4 as stated fails on a body that carries [error: null] next to its
    result: the field is there, and the entry is [UP]. *)
Lemma null_error_field_is_up :
  check_entry 7000 null_error evm_check
  = Returned {| status := u "UP";
                detail := u "Latency 42ms";
                latency_ms := Some 42 |}
  /\ get_prop (JObj [ (u "jsonrpc", JStr (u "2.0")); (u "id", JNum 1);
                      (u "result", JStr (u "v1")); (u "error", JNull) ])
       (u "error") = Some JNull.
Proof.
  split; vm_compute; reflexivity.
Qed.

(** C2 at its failing input.  The timeout guards the arrival of the
    response and not the reading of its body: a JSON-RPC endpoint that
    answers after 100 ms and delivers its body ten seconds later is
    reported [UP] with a latency of 10100 ms under a timeout of 7000 ms,
    and when the body never ends the probe never finishes. *)
Theorem jsonrpc_slow_body_escapes_timeout :
  check_entry 7000 slow_body evm_check
  = Returned {| status := u "UP";
                detail := u "Latency 10100ms";
                latency_ms := Some 10100 |}
  /\ check_entry 7000 endless_body evm_check = Pending
  /\ check_entry 7000 slow_body evm_check <> Returned (timed_out 7000).
Proof.
  split; [|split]; vm_compute; [reflexivity | reflexivity | discriminate].
Qed.

(** ** The allow-list *)

Lemma white_no_comma (s : js_string) : white s -> ~ In comma s.
Proof.
  unfold white. rewrite Forall_forall. intros H Hin.
  apply H in Hin. discriminate.
Qed.

Lemma allow_origins_of_padded (before core after : js_string) :
  white before -> white after -> ~ In comma core -> trim core <> [] ->
  allow_origins_of (before ++ core ++ after) = [trim core].
Proof.
  intros Hb Ha Hc Hne. unfold allow_origins_of.
  rewrite split_comma_no_comma.
  - simpl. rewrite trim_padding by assumption.
    now rewrite (proj2 (str_truthy_nonempty _) Hne).
  - intros Hin. apply in_app_or in Hin. destruct Hin as [Hin|Hin].
    + now apply (white_no_comma before).
    + apply in_app_or in Hin. destruct Hin as [Hin|Hin]; [tauto|].
      now apply (white_no_comma after).
Qed.

Lemma resolve_single (origin : js_string) :
  origin <> [] -> resolveAllowedOrigin [origin] origin = origin.
Proof.
  intros Hne. destruct (includes [origin] (u "*")) eqn:E.
  - apply includes_In in E. destruct E as [->|[]]. reflexivity.
  - apply includes_not_In in E. apply resolve_member; try assumption.
    now left.
Qed.

Lemma allow_origin_header (allow : list js_string) (origin : js_string) :
  assoc (u "access-control-allow-origin") (jsonHeaders allow origin)
  = Some (resolveAllowedOrigin allow origin).
Proof. reflexivity. Qed.

Lemma split_comma_app (p t : js_string) :
  ~ In comma p -> split_comma (p ++ comma :: t) = p :: split_comma t.
Proof.
  induction p as [|x p IH]; simpl; intros H.
  - reflexivity.
  - destruct (N.eqb x comma) eqn:Ex.
    + apply N.eqb_eq in Ex. tauto.
    + rewrite IH by tauto. reflexivity.
Qed.

(** Splitting what was joined with commas gives the pieces back. *)
Lemma split_comma_join (pieces : list js_string) :
  pieces <> [] -> Forall (fun p => ~ In comma p) pieces ->
  split_comma (join_comma pieces) = pieces.
Proof.
  induction pieces as [|p rest IH]; intros Hne Hall; [congruence|].
  inversion Hall as [|? ? Hp Hrest]; subst.
  destruct rest as [|p' rest'].
  - simpl. now apply split_comma_no_comma.
  - change (join_comma (p :: p' :: rest'))
      with (p ++ comma :: join_comma (p' :: rest')).
    rewrite split_comma_app by assumption.
    rewrite IH; [reflexivity | discriminate | assumption].
Qed.

Lemma trimStart_tight (s : js_string) :
  (forall c r, s = c :: r -> is_white_space c = false) -> trimStart s = s.
Proof.
  destruct s as [|c r]; intros H; simpl; [reflexivity|].
  now rewrite (H c r eq_refl).
Qed.

(** [trim] gives back exactly what stands between the white space. *)
Lemma trim_tight (before core after : js_string) :
  white before -> white after -> tight core ->
  trim (before ++ core ++ after) = core.
Proof.
  intros Hb Ha [Hfirst Hlast]. rewrite trim_padding by assumption.
  unfold trim, trimEnd. rewrite (trimStart_tight core Hfirst).
  rewrite trimStart_tight; [apply rev_involutive|].
  intros c r E. apply (Hlast (rev r) c).
  rewrite <- (rev_involutive core), E. reflexivity.
Qed.

Lemma trim_of_tight (core : js_string) : tight core -> trim core = core.
Proof.
  intros H.
  pose proof (trim_tight [] core [] (Forall_nil _) (Forall_nil _) H) as E.
  simpl in E. now rewrite app_nil_r in E.
Qed.

Lemma is_white_space_spec (c : N) :
  is_white_space c = true <-> In c white_space_code_units.
Proof.
  unfold is_white_space, white_space_code_units.
  rewrite !orb_true_iff, !andb_true_iff, !N.eqb_eq, !N.leb_le.
  simpl In. lia.
Qed.

Lemma ALLOW_ORIGINS_of_env (s : settings) (value : js_string) :
  env s (u "CORS_ORIGIN") = Some value -> value <> [] ->
  ALLOW_ORIGINS s = allow_origins_of value.
Proof.
  intros H Hne. unfold ALLOW_ORIGINS, CORS_ORIGIN. rewrite H.
  unfold or_default. now rewrite (proj2 (str_truthy_nonempty _) Hne).
Qed.

(** C10.  [ALLOW_ORIGINS] is read from [CORS_ORIGIN] piece by piece:
    when the variable holds pieces joined by commas, the allow-list is
    the list of those pieces, each without the white space around it, in
    the same order, the pieces that are empty or white only left out.
    The white space removed is the ECMAScript set, and what stands
    between it is kept as it is.  So an entry written with white space
    around it is listed without it and a request with that origin gets
    it back; and when [CORS_ORIGIN] is made of commas and white space
    only, the allow-list is empty and every response the handler writes
    carries [access-control-allow-origin: *]. *)
Theorem allow_list_parsing :
  (forall cors origin,
     In origin (allow_origins_of cors) <->
     origin <> [] /\ exists piece, In piece (split_comma cors)
                                   /\ trim piece = origin)
  /\ (forall before core after,
        white before -> white after -> ~ In comma core -> trim core <> [] ->
        allow_origins_of (before ++ core ++ after) = [trim core]
        /\ resolveAllowedOrigin (allow_origins_of (before ++ core ++ after))
             (trim core) = trim core)
  /\ (forall cors piece,
        In piece (split_comma cors) -> trim piece <> [] ->
        ~ In (u "*") (allow_origins_of cors) ->
        resolveAllowedOrigin (allow_origins_of cors) (trim piece) = trim piece)
  /\ (forall cors, blank_list cors -> allow_origins_of cors = [])
  /\ (forall s n req r,
        blank_list (CORS_ORIGIN s) ->
        handler s n req = Returned r ->
        ALLOW_ORIGINS s = []
        /\ assoc (u "access-control-allow-origin") (headers r) = Some (u "*"))
  /\ (forall s pieces,
        pieces <> [] -> Forall (fun p => ~ In comma p) pieces ->
        join_comma pieces <> [] ->
        env s (u "CORS_ORIGIN") = Some (join_comma pieces) ->
        ALLOW_ORIGINS s
        = filter (fun o => match o with [] => false | _ :: _ => true end)
            (map trim pieces))
  /\ (forall s first second,
        ~ In comma first -> ~ In comma second ->
        env s (u "CORS_ORIGIN") = Some (first ++ comma :: second) ->
        ALLOW_ORIGINS s
        = filter (fun o => match o with [] => false | _ :: _ => true end)
            [trim first; trim second])
  /\ (forall before core after,
        white before -> white after -> tight core ->
        trim (before ++ core ++ after) = core)
  /\ (forall c, is_white_space c = true <-> In c white_space_code_units)
  /\ (forall s before core after,
        white before -> white after -> tight core -> core <> [] ->
        ~ In comma core ->
        env s (u "CORS_ORIGIN") = Some (before ++ core ++ after) ->
        ALLOW_ORIGINS s = [core]
        /\ resolveAllowedOrigin (ALLOW_ORIGINS s) core = core).
Proof.
  split; [|split; [|split; [|split; [|split; [|split; [|split; [|split;
    [|split]]]]]]]].
  - apply allow_origins_of_In.
  - intros before core after Hb Ha Hc Hne.
    rewrite allow_origins_of_padded by assumption.
    split; [reflexivity | now apply resolve_single].
  - intros cors piece Hp Hne Hstar. apply resolve_member; try assumption.
    apply allow_origins_of_In. split; [assumption|]. now exists piece.
  - apply allow_origins_of_blank.
  - intros s n req r Hblank Hr.
    assert (E : ALLOW_ORIGINS s = [])
      by (unfold ALLOW_ORIGINS; now apply allow_origins_of_blank).
    split; [exact E|].
    rewrite (handler_headers _ _ _ _ Hr), allow_origin_header. now rewrite E.
  - intros s pieces Hne Hall Hjoin Henv.
    rewrite (ALLOW_ORIGINS_of_env s _ Henv Hjoin).
    unfold allow_origins_of. now rewrite split_comma_join.
  - intros s first second Hf Hs Henv.
    rewrite (ALLOW_ORIGINS_of_env s _ Henv) by (now destruct first).
    unfold allow_origins_of. rewrite split_comma_app by assumption.
    now rewrite split_comma_no_comma.
  - apply trim_tight.
  - apply is_white_space_spec.
  - intros s before core after Hb Ha Ht Hne Hc Henv.
    assert (E : ALLOW_ORIGINS s = [core]).
    { rewrite (ALLOW_ORIGINS_of_env s _ Henv).
      - rewrite allow_origins_of_padded; try assumption.
        + now rewrite trim_of_tight.
        + now rewrite trim_of_tight.
      - intros E. apply (f_equal (@List.length N)) in E.
        rewrite !length_app in E. destruct core; [congruence|].
        simpl in E. lia. }
    split; [exact E|]. rewrite E. now apply resolve_single.
Qed.

Lemma allow_list_parsing_example :
  (allow_origins_of (u " " ++ u "https://a.com" ++ u " ") = [u "https://a.com"]
   /\ resolveAllowedOrigin (allow_origins_of (u " " ++ u "https://a.com" ++ u " "))
        (u "https://a.com") = u "https://a.com")
  /\ allow_origins_of (u " , ,") = []
  /\ assoc (u "access-control-allow-origin")
       (jsonHeaders (ALLOW_ORIGINS blank_cors_settings) (u "https://evil.com"))
     = Some (u "*")
  /\ ALLOW_ORIGINS two_origin_settings = [u "https://a.com"; u "https://b.com"].
Proof.
  split; [|split; [|split]].
  - refine (proj1 (proj2 allow_list_parsing) (u " ") (u "https://a.com") (u " ")
              _ _ _ _).
    + repeat constructor.
    + repeat constructor.
    + vm_compute. intuition discriminate.
    + discriminate.
  - refine (proj1 (proj2 (proj2 (proj2 allow_list_parsing))) (u " , ,") _).
    unfold blank_list. repeat constructor; (now left) || (now right).
  - refine (proj2 (proj1 (proj2 (proj2 (proj2 (proj2 allow_list_parsing))))
                     blank_cors_settings example_node
                     (request_from "GET" "/missing" (Some (u "https://evil.com")))
                     {| code := 404;
                        headers := jsonHeaders (ALLOW_ORIGINS blank_cors_settings)
                                     (u "https://evil.com");
                        body := error_body "not_found" |} _ eq_refl)).
    unfold blank_list. repeat constructor; (now left) || (now right).
  - refine (proj1 (proj2 (proj2 (proj2 (proj2 (proj2 allow_list_parsing)))))
              two_origin_settings
              [u " https://a.com "; u " https://b.com "; []; []] _ _ _ eq_refl).
    + discriminate.
    + repeat constructor; vm_compute; intuition discriminate.
    + discriminate.
Defined.

(** ** Further properties of the probes and of the handler *)

Lemma timer_delay_in_range (timeout : Z) :
  1 <= timeout <= 2147483647 -> timer_delay timeout = timeout.
Proof.
  intros [H1 H2]. unfold timer_delay.
  apply Z.leb_le in H1, H2. now rewrite H1, H2.
Qed.

Lemma timer_delay_out_of_range (timeout : Z) :
  timeout < 1 \/ 2147483647 < timeout -> timer_delay timeout = 1.
Proof.
  intros H. unfold timer_delay.
  destruct ((1 <=? timeout) && (timeout <=? 2147483647)) eqn:E; [|reflexivity].
  apply andb_true_iff in E. destruct E as [E1 E2].
  apply Z.leb_le in E1, E2. lia.
Qed.

(** X1.  For each kind of check and a timeout from 1 to 2^31-1
    milliseconds, when the operation the probe puts under the timeout
    (the [fetch] of the two HTTP kinds, the connection of [tcp]) is
    still unsettled later than [timeout] milliseconds after it started,
    the entry is [DOWN] with detail [timeout after <timeout>ms] and no
    latency. *)
Theorem guarded_operation_times_out (timeout : Z) (io : platform) (c : check) :
  1 <= timeout <= 2147483647 ->
  guarded_operation_unsettled io c timeout ->
  check_entry timeout io c
  = Returned {| status := u "DOWN";
                detail := u "timeout after " ++ num_to_string timeout ++ u "ms";
                latency_ms := None |}.
Proof.
  intros Hrange H. apply probe_times_out.
  now rewrite timer_delay_in_range.
Qed.

Lemma guarded_operation_times_out_example :
  check_entry 7000 silent evm_check
  = Returned {| status := u "DOWN";
                detail := u "timeout after 7000ms";
                latency_ms := None |}.
Proof.
  refine (guarded_operation_times_out 7000 silent evm_check _ _).
  - split; discriminate.
  - exact I.
Defined.

(** X2.  A response with a status outside 200..299 gives the entry [DOWN]
    with detail [HTTP <status>], for both HTTP kinds. *)
Theorem non_success_status_is_down (timeout : Z) (io : platform) (c : check)
    (url : js_string) (res : response) :
  (kind c = jsonrpc url
   /\ await (withTimeout (fetch io url (Some jsonrpc_init)) timeout) = Returned res)
  \/ (kind c = tendermint url
      /\ await (withTimeout (fetch io (url ++ u "/status") None) timeout)
         = Returned res) ->
  res_ok res = false ->
  check_entry timeout io c
  = Returned {| status := u "DOWN";
                detail := u "HTTP " ++ num_to_string (res_status res);
                latency_ms := None |}.
Proof.
  intros [[Hk Hf] | [Hk Hf]] Hok; unfold check_entry, probe; rewrite Hk;
    unfold probeJsonRpc, probeTendermintStatus; rewrite Hf; simpl;
    rewrite Hok; reflexivity.
Qed.

Lemma non_success_status_is_down_example :
  check_entry 7000 unavailable evm_check
  = Returned {| status := u "DOWN"; detail := u "HTTP 503"; latency_ms := None |}.
Proof.
  refine (non_success_status_is_down 7000 unavailable evm_check
            (u "https://evm-rpc.infinitedrive.xyz")
            {| res_status := 503; res_json := NeverSettles |} _ _).
  - left. split; reflexivity.
  - reflexivity.
Defined.

(** X3.  A request other than OPTIONS whose URL the parser rejects is not
    answered: the handler throws before it looks at the method or the
    path. *)
Theorem unparsable_url_is_not_answered (s : settings) (n : node) (req : request)
    (target : js_string) :
  method req <> u "OPTIONS" -> url req = Some target -> target <> [] ->
  URL_pathname n target (request_base req) = None ->
  handler s n req = Thrown (Error (u "Invalid URL")).
Proof.
  intros Hm Hu Hne Hp. unfold handler.
  rewrite (proj2 (str_eqb_neq _ _) Hm), Hu.
  rewrite (proj2 (str_truthy_nonempty _) Hne). simpl negb. cbv iota.
  now rewrite Hp.
Qed.

Lemma unparsable_url_is_not_answered_example :
  handler default_settings example_node (request_from "GET" "//" None)
  = Thrown (Error (u "Invalid URL")).
Proof.
  refine (unparsable_url_is_not_answered default_settings example_node
            (request_from "GET" "//" None) (u "//") _ eq_refl _ eq_refl);
    discriminate.
Defined.

(** ** What the CORS headers never do *)

Lemma resolve_cases (allow : list js_string) (origin : js_string) :
  resolveAllowedOrigin allow origin = u "*"
  \/ In (resolveAllowedOrigin allow origin) allow.
Proof.
  destruct allow as [|first rest]; [now left|].
  unfold resolveAllowedOrigin.
  destruct (includes (first :: rest) (u "*")); [now left|].
  destruct (negb (str_truthy origin)); [right; now left|].
  destruct (includes (first :: rest) origin) eqn:E.
  - right. now apply includes_In.
  - right; now left.
Qed.

(** X4.  The origin written in [access-control-allow-origin] is the
    wildcard or one of the configured origins, and with a non-empty
    allow-list that has no wildcard it is always a configured origin.  An
    origin that is not configured is never reflected. *)
Theorem allowed_origin_is_configured (s : settings) (n : node) (req : request)
    (r : http_response) :
  handler s n req = Returned r ->
  exists allowed,
    assoc (u "access-control-allow-origin") (headers r) = Some allowed
    /\ (allowed = u "*" \/ In allowed (ALLOW_ORIGINS s))
    /\ (ALLOW_ORIGINS s <> [] -> ~ In (u "*") (ALLOW_ORIGINS s) ->
        In allowed (ALLOW_ORIGINS s))
    /\ (~ In (request_origin req) (ALLOW_ORIGINS s) ->
        request_origin req <> u "*" ->
        allowed <> request_origin req).
Proof.
  intros Hr.
  exists (resolveAllowedOrigin (ALLOW_ORIGINS s) (request_origin req)).
  rewrite (handler_headers _ _ _ _ Hr), allow_origin_header.
  split; [reflexivity|]. split; [apply resolve_cases|]. split.
  - intros Hne Hstar.
    destruct (resolve_cases (ALLOW_ORIGINS s) (request_origin req)) as [E|Hin];
      [|exact Hin].
    exfalso. destruct (ALLOW_ORIGINS s) as [|first rest] eqn:Ea; [congruence|].
    unfold resolveAllowedOrigin in E.
    rewrite (proj2 (includes_not_In _ _) Hstar) in E.
    destruct (negb (str_truthy (request_origin req))).
    + apply Hstar. rewrite <- E. now left.
    + destruct (includes (first :: rest) (request_origin req)) eqn:Ei.
      * apply includes_In in Ei. apply Hstar. now rewrite <- E.
      * apply Hstar. rewrite <- E. now left.
  - intros Hout Hnot E.
    destruct (resolve_cases (ALLOW_ORIGINS s) (request_origin req)) as [E'|Hin].
    + congruence.
    + rewrite E in Hin. contradiction.
Qed.

Lemma allowed_origin_is_configured_example :
  exists allowed,
    assoc (u "access-control-allow-origin")
      (jsonHeaders (ALLOW_ORIGINS default_settings) (u "https://evil.com"))
    = Some allowed
    /\ In allowed (ALLOW_ORIGINS default_settings)
    /\ allowed <> u "https://evil.com".
Proof.
  destruct (allowed_origin_is_configured default_settings example_node
              (request_from "GET" "/healthz" (Some (u "https://evil.com")))
              {| code := 200;
                 headers := jsonHeaders (ALLOW_ORIGINS default_settings)
                              (u "https://evil.com");
                 body := Some (JObj [ (u "ok", JBool true);
                                      (u "uptime_s", JNum 3) ]) |}
              eq_refl) as (allowed & Ha & _ & Hin & Hne).
  exists allowed. split; [exact Ha|]. split.
  - apply Hin; vm_compute; [discriminate | intuition discriminate].
  - apply Hne; vm_compute; [intuition discriminate | discriminate].
Defined.

(** X17.  Every response the handler writes, error responses included,
    carries the same four fixed headers: JSON content type, no caching,
    and the allowed methods and headers of CORS. *)
Theorem every_response_has_json_headers (s : settings) (n : node)
    (req : request) (r : http_response) :
  handler s n req = Returned r ->
  assoc (u "content-type") (headers r)
  = Some (u "application/json; charset=utf-8")
  /\ assoc (u "cache-control") (headers r) = Some (u "no-store")
  /\ assoc (u "access-control-allow-methods") (headers r)
     = Some (u "GET, OPTIONS")
  /\ assoc (u "access-control-allow-headers") (headers r)
     = Some (u "content-type")
  /\ map fst (headers r)
     = [ u "content-type"; u "cache-control"; u "access-control-allow-origin";
         u "access-control-allow-methods"; u "access-control-allow-headers" ].
Proof.
  intros Hr. rewrite (handler_headers _ _ _ _ Hr). repeat split.
Qed.

Lemma every_response_has_json_headers_example :
  assoc (u "cache-control")
    (jsonHeaders (ALLOW_ORIGINS default_settings) [])
  = Some (u "no-store").
Proof.
  exact (proj1 (proj2 (every_response_has_json_headers default_settings
                         example_node
                         {| method := u "POST"; url := None;
                            host_header := None; origin_header := None |}
                         {| code := 400;
                            headers := jsonHeaders (ALLOW_ORIGINS default_settings) [];
                            body := error_body "missing_url" |}
                         eq_refl))).
Defined.

(** ** The entries of the allow-list *)

Lemma trimStart_split (s : js_string) :
  exists w, white w /\ s = w ++ trimStart s.
Proof.
  induction s as [|c s (w & Hw & E)]; simpl.
  - exists []. split; [constructor | reflexivity].
  - destruct (is_white_space c) eqn:Hc.
    + exists (c :: w). split; [now constructor|]. simpl. now rewrite <- E.
    + exists []. split; [constructor | reflexivity].
Qed.

Lemma trimStart_head (s : js_string) (c : N) (r : js_string) :
  trimStart s = c :: r -> is_white_space c = false.
Proof.
  induction s as [|x s IH]; simpl; [discriminate|].
  destruct (is_white_space x) eqn:Hx; [exact IH|].
  intros H. injection H as <- _. exact Hx.
Qed.

Lemma trimEnd_split (s : js_string) :
  exists w, white w /\ s = trimEnd s ++ w.
Proof.
  destruct (trimStart_split (rev s)) as (w & Hw & E).
  exists (rev w). split; [now apply white_rev|].
  unfold trimEnd. rewrite <- rev_app_distr, <- E. now rewrite rev_involutive.
Qed.

(** [trim] removes a white prefix and a white suffix, nothing else. *)
Lemma trim_split (s : js_string) :
  exists a b, white a /\ white b /\ s = a ++ trim s ++ b.
Proof.
  destruct (trimStart_split s) as (a & Ha & Ea).
  destruct (trimEnd_split (trimStart s)) as (b & Hb & Eb).
  exists a, b. repeat split; try assumption.
  unfold trim. now rewrite <- Eb.
Qed.

Lemma trim_idempotent (s : js_string) : trim (trim s) = trim s.
Proof.
  destruct (trim_split s) as (a & b & Ha & Hb & E).
  rewrite E at 2. now rewrite trim_padding.
Qed.

Lemma trim_first (s : js_string) (c : N) (r : js_string) :
  trim s = c :: r -> is_white_space c = false.
Proof.
  intros H. destruct (trimEnd_split (trimStart s)) as (b & _ & Eb).
  fold (trim s) in Eb. rewrite H in Eb.
  now apply (trimStart_head s c (r ++ b)).
Qed.

Lemma trim_last (s : js_string) (r : js_string) (c : N) :
  trim s = r ++ [c] -> is_white_space c = false.
Proof.
  intros H. apply (f_equal (@rev N)) in H.
  unfold trim, trimEnd in H. rewrite rev_involutive, rev_app_distr in H.
  simpl in H. now apply trimStart_head in H.
Qed.

(** X5.  Every entry of the allow-list is non-empty, has no comma, and
    neither starts nor ends with white space: trimming it again changes
    nothing. *)
Theorem allow_list_entries_are_clean (cors origin : js_string) :
  In origin (allow_origins_of cors) ->
  origin <> []
  /\ trim origin = origin
  /\ ~ In comma origin
  /\ (forall c r, origin = c :: r -> is_white_space c = false)
  /\ (forall r c, origin = r ++ [c] -> is_white_space c = false).
Proof.
  intros H. apply allow_origins_of_In in H.
  destruct H as (Hne & piece & Hp & <-).
  split; [exact Hne|]. split; [apply trim_idempotent|]. split; [|split].
  - intros Hin. destruct (trim_split piece) as (a & b & _ & _ & E).
    assert (Hc : In comma piece).
    { rewrite E. apply in_or_app. right. apply in_or_app. now left. }
    now destruct (split_comma_chars _ _ _ Hp Hc).
  - apply trim_first.
  - apply trim_last.
Qed.

Lemma allow_list_entries_are_clean_example :
  trim (u "https://b.com") = u "https://b.com"
  /\ ~ In comma (u "https://b.com").
Proof.
  pose proof (allow_list_entries_are_clean
                (u " https://a.com , https://b.com ") (u "https://b.com")
                (or_intror (or_introl eq_refl))) as H.
  exact (conj (proj1 (proj2 H)) (proj1 (proj2 (proj2 H)))).
Defined.

(** X16.  When [CORS_ORIGIN] is unset, or set to the empty string, the
    allow-list is the single default origin, and that origin is what
    every request is answered with, whatever its own origin: never the
    wildcard. *)
Theorem default_cors_origin (s : settings) :
  env s (u "CORS_ORIGIN") = None \/ env s (u "CORS_ORIGIN") = Some [] ->
  ALLOW_ORIGINS s = [u "https://foxxone.one"]
  /\ forall origin,
       resolveAllowedOrigin (ALLOW_ORIGINS s) origin = u "https://foxxone.one".
Proof.
  intros H.
  assert (E : ALLOW_ORIGINS s = [u "https://foxxone.one"]).
  { unfold ALLOW_ORIGINS, CORS_ORIGIN. destruct H as [-> | ->]; reflexivity. }
  split; [exact E|]. intros origin. rewrite E.
  unfold resolveAllowedOrigin.
  change (includes [u "https://foxxone.one"] (u "*")) with false. cbv iota.
  destruct (negb (str_truthy origin)); [reflexivity|].
  destruct (includes [u "https://foxxone.one"] origin) eqn:Ei; [|reflexivity].
  apply includes_In in Ei. now destruct Ei as [<-|[]].
Qed.

Lemma default_cors_origin_example :
  resolveAllowedOrigin (ALLOW_ORIGINS default_settings) (u "https://evil.com")
  = u "https://foxxone.one".
Proof.
  exact (proj2 (default_cors_origin default_settings (or_introl eq_refl))
           (u "https://evil.com")).
Defined.

(** ** The entries of a report *)

Lemma assoc_In {V : Type} (k : js_string) (l : list (js_string * V)) (v : V) :
  assoc k l = Some v -> In (k, v) l.
Proof.
  induction l as [|[k' v'] l IH]; simpl; [discriminate|].
  destruct (str_eqb k k') eqn:E.
  - apply str_eqb_spec in E. intros H. injection H as <-. subst. now left.
  - intros H. right. now apply IH.
Qed.

Lemma obj_set_In {V : Type} (k k' : js_string) (v x : V) (o : js_object V) :
  In (k, x) (obj_set k' v o) -> (k = k' /\ x = v) \/ In (k, x) o.
Proof.
  induction o as [|[k'' v''] o IH]; simpl.
  - intros [H|[]]. injection H as <- <-. now left.
  - destruct (str_eqb k' k'') eqn:E; simpl.
    + apply str_eqb_spec in E. subst k''.
      intros [H|H]; [injection H as <- <-; now left | right; now right].
    + intros [H|H]; [right; now left|].
      destruct (IH H) as [?|?]; [now left | right; now right].
Qed.

Lemma check_entry_well_formed (timeout : Z) (io : platform) (c : check)
    (entry : outcome) :
  check_entry timeout io c = Returned entry -> well_formed_entry entry.
Proof.
  destruct (check_entry_cases timeout io c)
    as [(l & _ & ->) | [(err & _ & ->) | [_ ->]]]; intros H;
    try discriminate; injection H as <-.
  - left. split; [reflexivity|]. now exists l.
  - right. now split.
Qed.

(** Everything the loop stores was there before or is the entry of one
    of the checks. *)
Lemma for_each_check_entries (timeout : Z) (w : world) (checks : list check)
    (i : nat) (acc r : js_object outcome) (key : js_string) (o : outcome) :
  for_each_check timeout w i checks acc = Returned r ->
  In (key, o) r ->
  In (key, o) acc \/ (In key (map id checks) /\ well_formed_entry o).
Proof.
  revert i acc. induction checks as [|c rest IH]; simpl; intros i acc H Hin.
  - injection H as <-. now left.
  - destruct (check_entry timeout (during w i) c) as [entry| |] eqn:E;
      simpl in H; try discriminate.
    destruct (IH _ _ H Hin) as [Hacc | [Hid Hwf]].
    + apply obj_set_In in Hacc. destruct Hacc as [[-> ->] | Hacc].
      * right. split; [now left|]. now apply check_entry_well_formed in E.
      * now left.
    + right. split; [now right | exact Hwf].
Qed.

(** X6.  In the report of any run, a key of [statuses] is the id of a
    registered check, and the entry under it has one of two shapes: [UP]
    with a latency and the detail [Latency <latency>ms], or [DOWN] with a
    null latency.  So [latency_ms] is null exactly for the [DOWN]
    entries; the report is marked [server] and dated by the platform. *)
Theorem report_entries_are_well_formed (timeout : Z) (checks : list check)
    (w : world) (r : report) :
  run_checks timeout checks w = Returned r ->
  source r = u "server"
  /\ checked_at r = iso_time w
  /\ forall key o,
       obj_get key (statuses r) = Some o ->
       In key (map id checks)
       /\ well_formed_entry o
       /\ (latency_ms o = None <-> status o = u "DOWN").
Proof.
  intros H. apply run_checks_returned in H. destruct H as (H & Ht & Hs).
  split; [exact Hs|]. split; [exact Ht|].
  intros key o Hget. apply assoc_In in Hget.
  destruct (for_each_check_entries _ _ _ _ _ _ _ _ H Hget) as [[]|[Hid Hwf]].
  split; [exact Hid|]. split; [exact Hwf|].
  destruct Hwf as [[Hup (l & Hl & _)] | [Hdown Hl]].
  - rewrite Hl, Hup. split; discriminate.
  - rewrite Hl, Hdown. split; reflexivity.
Qed.

Lemma report_entries_are_well_formed_example :
  exists r,
    run_checks 7000 (CHECKS default_settings) mixed_world = Returned r
    /\ source r = u "server"
    /\ (forall o, obj_get (u "infinite-grpc") (statuses r) = Some o ->
        well_formed_entry o).
Proof.
  destruct (run_checks_returns 7000 (CHECKS default_settings) mixed_world
              mixed_world_settles) as [r Hr].
  exists r. split; [exact Hr|].
  pose proof (report_entries_are_well_formed 7000 (CHECKS default_settings)
                mixed_world r Hr) as (Hs & _ & He).
  split; [exact Hs|]. intros o Ho.
  exact (proj1 (proj2 (He (u "infinite-grpc") o Ho))).
Defined.

(** X12.  A run returns as soon as the body of every JSON-RPC response
    that arrived in time with a success status settles: nothing else can
    keep [runChecks] waiting, and a registry without JSON-RPC checks
    always gets its report. *)
Theorem run_returns_when_bodies_settle (timeout : Z) (checks : list check)
    (w : world) :
  (forall k c url res,
     nth_error checks k = Some c -> kind c = jsonrpc url ->
     await (withTimeout (fetch (during w k) url (Some jsonrpc_init)) timeout)
     = Returned res ->
     res_ok res = true ->
     res_json res <> NeverSettles) ->
  exists r, run_checks timeout checks w = Returned r.
Proof.
  intros H. apply run_checks_returns. intros k c Hn Hp.
  apply probe_pending in Hp. destruct Hp as (url & res & Hk & Hf & Hok & Hj).
  exact (H k c url res Hn Hk Hf Hok Hj).
Qed.

Lemma run_returns_when_bodies_settle_example :
  exists r, run_checks 7000 (CHECKS default_settings) healthy_world = Returned r.
Proof.
  apply run_returns_when_bodies_settle.
  intros k c url res _ _ Hf _.
  vm_compute in Hf. injection Hf as <-. discriminate.
Defined.

(** ** The handler, branch by branch *)

Lemma handler_cases (s : settings) (n : node) (req : request) :
  (method req = u "OPTIONS" /\ handler s n req = respond_with s req 204 None)
  \/ (handler s n req = respond_with s req 400 (error_body "missing_url"))
  \/ (handler s n req = Thrown (Error (u "Invalid URL")))
  \/ (handler s n req
      = respond_with s req 405 (error_body "method_not_allowed"))
  \/ (exists target pathname,
        method req = u "GET" /\ url req = Some target /\ target <> []
        /\ URL_pathname n target (request_base req) = Some pathname).
Proof.
  destruct (str_eqb (method req) (u "OPTIONS")) eqn:Eo.
  { apply str_eqb_spec in Eo. left. split; [exact Eo|].
    now apply handler_options. }
  apply str_eqb_neq in Eo. right.
  destruct (url req) as [target|] eqn:Eu.
  2:{ left. apply handler_missing_url; auto. }
  destruct target as [|c t].
  { left. apply handler_missing_url; auto. }
  right.
  destruct (URL_pathname n (c :: t) (request_base req)) as [pathname|] eqn:Ep.
  2:{ left. unfold handler. rewrite (proj2 (str_eqb_neq _ _) Eo), Eu. simpl.
      now rewrite Ep. }
  right.
  destruct (str_eqb (method req) (u "GET")) eqn:Eg.
  - right. apply str_eqb_spec in Eg. exists (c :: t), pathname.
    repeat split; try assumption. discriminate.
  - left. apply str_eqb_neq in Eg.
    apply (handler_other_method s n req (c :: t) pathname); try assumption.
    discriminate.
Qed.

(** X7.  The handler writes only the status codes 200, 204, 400, 404 and
    405: the 500 branch around [runChecks] is never taken, since no
    failure of a probe leaves [runChecks].  A response has no body
    exactly when its code is 204. *)
Theorem handler_status_codes (s : settings) (n : node) (req : request)
    (r : http_response) :
  handler s n req = Returned r ->
  In (code r) written_codes
  /\ code r <> 500
  /\ (body r = None <-> code r = 204).
Proof.
  intros Hr.
  assert (K : In (code r) written_codes /\ (body r = None <-> code r = 204)).
  { destruct (handler_cases s n req)
      as [[_ E] | [E | [E | [E | (target & pathname & Hm & Hu & Hne & Hp)]]]].
    - rewrite E in Hr. injection Hr as <-. simpl. split; [auto|tauto].
    - rewrite E in Hr. injection Hr as <-. simpl.
      split; [auto|]. split; discriminate.
    - rewrite E in Hr. discriminate.
    - rewrite E in Hr. injection Hr as <-. simpl.
      split; [auto 6|]. split; discriminate.
    - rewrite (handler_get s n req target pathname Hm Hu Hne Hp) in Hr.
      destruct (str_eqb pathname (u "/healthz")).
      { injection Hr as <-. simpl. split; [auto|]. split; discriminate. }
      destruct (str_eqb pathname (u "/endpoint-status")).
      + destruct (runChecks s (probes n)) as [payload|err|] eqn:Er.
        * injection Hr as <-. simpl. split; [auto|]. split; discriminate.
        * now apply run_checks_never_throws in Er.
        * discriminate.
      + injection Hr as <-. simpl. split; [auto 6|]. split; discriminate. }
  destruct K as [Hin Hb]. split; [exact Hin|]. split; [|exact Hb].
  intros E. rewrite E in Hin. simpl in Hin. intuition discriminate.
Qed.

Lemma handler_status_codes_example :
  exists r,
    handler default_settings example_node
      (request_from "POST" "/endpoint-status" None) = Returned r
    /\ In (code r) written_codes /\ code r <> 500 /\ body r <> None.
Proof.
  exists {| code := 405;
            headers := jsonHeaders (ALLOW_ORIGINS default_settings) [];
            body := error_body "method_not_allowed" |}.
  pose proof (handler_status_codes default_settings example_node
                (request_from "POST" "/endpoint-status" None) _ eq_refl)
    as (Hin & H500 & Hb).
  split; [reflexivity|]. split; [exact Hin|]. split; [exact H500|].
  intros E. apply Hb in E. discriminate.
Defined.

(** The properties of [statuses], as created, are the registry ids. *)
Lemma runChecks_created_keys (s : settings) (w : world) (r : report) :
  runChecks s w = Returned r -> map fst (statuses r) = registry_ids.
Proof.
  intros Hr. apply run_checks_returned in Hr. destruct Hr as (Hloop & _).
  apply for_each_check_keys in Hloop.
  - exact Hloop.
  - exact registry_ids_NoDup.
Qed.

(** X8.  [GET /endpoint-status] is answered with 200 and the report as
    soon as [runChecks] returns: the body has the three members
    [checked_at], [source] (always [server]) and [statuses], and
    [statuses] lists the six registry ids in registry order, each with
    the members [status], [detail], [latency_ms] of its entry.  The only
    other possibility is that no answer is written, because [runChecks]
    is still waiting. *)
Theorem endpoint_status_body (s : settings) (n : node) (req : request)
    (target : js_string) :
  method req = u "GET" -> url req = Some target -> target <> [] ->
  URL_pathname n target (request_base req) = Some (u "/endpoint-status") ->
  (forall r,
     runChecks s (probes n) = Returned r ->
     handler s n req = respond_with s req 200 (Some (report_json r))
     /\ get_prop (report_json r) (u "checked_at")
        = Some (JStr (iso_time (probes n)))
     /\ get_prop (report_json r) (u "source") = Some (JStr (u "server"))
     /\ exists members,
          get_prop (report_json r) (u "statuses") = Some (JObj members)
          /\ map fst members = registry_ids
          /\ forall key o,
               obj_get key (statuses r) = Some o ->
               assoc key members
               = Some (JObj [ (u "status", JStr (status o));
                              (u "detail", JStr (detail o));
                              (u "latency_ms",
                               match latency_ms o with
                               | Some latencyMs => JNum latencyMs
                               | None => JNull
                               end) ]))
  /\ (runChecks s (probes n) = Pending <-> handler s n req = Pending).
Proof.
  intros Hm Hu Hne Hp.
  pose proof (handler_get s n req target _ Hm Hu Hne Hp) as Hg.
  change (str_eqb (u "/endpoint-status") (u "/healthz")) with false in Hg.
  change (str_eqb (u "/endpoint-status") (u "/endpoint-status")) with true in Hg.
  cbv iota in Hg. split.
  - intros r Hr. rewrite Hr in Hg. split; [exact Hg|].
    pose proof (run_checks_returned _ _ _ _ Hr) as (Hloop & Ht & Hs).
    split; [simpl; now rewrite Ht|]. split; [simpl; now rewrite Hs|].
    pose proof (runChecks_created_keys _ _ _ Hr) as Hkeys.
    assert (Hplain : own_entries (statuses r) = statuses r).
    { apply own_entries_plain. rewrite Hkeys. exact registry_ids_plain. }
    eexists. split; [reflexivity|]. rewrite Hplain. split.
    + rewrite map_map. exact Hkeys.
    + intros key o. unfold obj_get. clear.
      induction (statuses r) as [|[k v] l IH]; simpl; [discriminate|].
      destruct (str_eqb key k); [|exact IH].
      intros H. injection H as <-. reflexivity.
  - rewrite Hg. destruct (runChecks s (probes n)); split; intros H;
      try discriminate; reflexivity.
Qed.

Lemma endpoint_status_body_example :
  exists r,
    handler default_settings example_node
      (request_from "GET" "/endpoint-status" None)
    = respond_with default_settings
        (request_from "GET" "/endpoint-status" None) 200 (Some (report_json r))
    /\ get_prop (report_json r) (u "source") = Some (JStr (u "server")).
Proof.
  destruct (run_checks_returns 7000 (CHECKS default_settings) mixed_world
              mixed_world_settles) as [r Hr].
  exists r.
  pose proof (proj1 (endpoint_status_body default_settings example_node
                       (request_from "GET" "/endpoint-status" None)
                       (u "/endpoint-status") eq_refl eq_refl
                       ltac:(discriminate) eq_refl) r Hr)
    as (H200 & _ & Hsource & _).
  exact (conj H200 Hsource).
Defined.

(** The handler throws only on a URL the parser rejects. *)
Lemma handler_thrown (s : settings) (n : node) (req : request) (e : thrown) :
  handler s n req = Thrown e ->
  e = Error (u "Invalid URL")
  /\ method req <> u "OPTIONS"
  /\ exists target,
       url req = Some target /\ target <> []
       /\ URL_pathname n target (request_base req) = None.
Proof.
  intros H.
  destruct (str_eqb (method req) (u "OPTIONS")) eqn:Eo.
  { apply str_eqb_spec in Eo. rewrite (handler_options _ _ _ Eo) in H.
    discriminate. }
  apply str_eqb_neq in Eo.
  destruct (url req) as [target|] eqn:Eu.
  2:{ rewrite handler_missing_url in H by auto. discriminate. }
  destruct target as [|c t].
  { rewrite handler_missing_url in H by auto. discriminate. }
  destruct (URL_pathname n (c :: t) (request_base req)) as [pathname|] eqn:Ep.
  - exfalso.
    destruct (str_eqb (method req) (u "GET")) eqn:Eg.
    + apply str_eqb_spec in Eg.
      rewrite (handler_get s n req (c :: t) pathname Eg Eu) in H;
        [|discriminate|exact Ep].
      destruct (str_eqb pathname (u "/healthz")); [discriminate|].
      destruct (str_eqb pathname (u "/endpoint-status")); [|discriminate].
      destruct (runChecks s (probes n)); discriminate.
    + apply str_eqb_neq in Eg.
      rewrite (handler_other_method s n req (c :: t) pathname) in H;
        try assumption; discriminate.
  - assert (E : handler s n req = Thrown (Error (u "Invalid URL"))).
    { unfold handler. rewrite (proj2 (str_eqb_neq _ _) Eo), Eu. simpl.
      now rewrite Ep. }
    rewrite E in H. injection H as <-.
    split; [reflexivity|]. split; [exact Eo|].
    exists (c :: t). repeat split; [discriminate | exact Ep].
Qed.

(** X18.  The handler leaves a request without answer in two situations
    only.  Either the request is not OPTIONS and its URL is rejected by
    the URL parser: the handler throws, nothing is written.  Or it is a
    [GET] on [/endpoint-status] during which [runChecks] waits for the
    body of a JSON-RPC response that never ends: the handler waits for
    ever.  Every other request is answered. *)
Theorem unanswered_requests (s : settings) (n : node) (req : request) :
  (forall r, handler s n req <> Returned r) ->
  (handler s n req = Thrown (Error (u "Invalid URL"))
   /\ method req <> u "OPTIONS"
   /\ exists target,
        url req = Some target /\ target <> []
        /\ URL_pathname n target (request_base req) = None)
  \/ (handler s n req = Pending
      /\ method req = u "GET"
      /\ (exists target,
            url req = Some target
            /\ URL_pathname n target (request_base req)
               = Some (u "/endpoint-status"))
      /\ exists k c url_k res,
           nth_error (CHECKS s) k = Some c
           /\ kind c = jsonrpc url_k
           /\ await (withTimeout
                       (fetch (during (probes n) k) url_k (Some jsonrpc_init))
                       (REQUEST_TIMEOUT_MS s)) = Returned res
           /\ res_json res = NeverSettles).
Proof.
  intros Hno.
  destruct (handler s n req) as [r|e|] eqn:H.
  - now elim (Hno r).
  - left. destruct (handler_thrown _ _ _ _ H) as (-> & Hm & Ht). auto.
  - right. split; [reflexivity|].
    destruct (handler_cases s n req)
      as [[_ E] | [E | [E | [E | (target & pathname & Hm & Hu & Hne & Hp)]]]];
      try (rewrite E in H; discriminate).
    rewrite (handler_get s n req target pathname Hm Hu Hne Hp) in H.
    destruct (str_eqb pathname (u "/healthz")); [discriminate|].
    destruct (str_eqb pathname (u "/endpoint-status")) eqn:Ep; [|discriminate].
    apply str_eqb_spec in Ep. subst pathname.
    split; [exact Hm|]. split; [now exists target|].
    destruct (runChecks s (probes n)) as [r|e|] eqn:Er; try discriminate.
    apply run_checks_pending in Er. destruct Er as (k & c & Hn & Hpend).
    apply probe_pending in Hpend.
    destruct Hpend as (url_k & res & Hk & Hf & _ & Hj).
    now exists k, c, url_k, res.
Qed.

Lemma unanswered_requests_example :
  handler default_settings stalled_node
    (request_from "GET" "/endpoint-status" None) = Pending
  /\ handler default_settings example_node (request_from "GET" "//" None)
     = Thrown (Error (u "Invalid URL")).
Proof.
  split.
  - destruct (unanswered_requests default_settings stalled_node
                (request_from "GET" "/endpoint-status" None))
      as [(H & _) | (H & _)].
    + intros r. discriminate.
    + vm_compute in H. discriminate.
    + exact H.
  - destruct (unanswered_requests default_settings example_node
                (request_from "GET" "//" None))
      as [(H & _) | (H & _)].
    + intros r. discriminate.
    + exact H.
    + vm_compute in H. discriminate.
Defined.

(** ** The probes, path by path *)

Lemma await_in_time {A : Type} (d : Z) (o : settled A) (timeout : Z) :
  d < timer_delay timeout ->
  await (withTimeout (Settles d o) timeout) = await (Settles d o).
Proof.
  intros H. unfold withTimeout.
  assert ((d <=? timer_delay timeout) = true) as -> by (apply Z.leb_le; lia).
  reflexivity.
Qed.

(** X9.  A transport failure that comes before the timer fires ([fetch]
    rejecting, or the socket emitting [error]) gives the entry [DOWN]
    with the message of that error, for each of the three kinds; a value
    that is not an error gives the detail [request failed]. *)
Theorem transport_failure_is_down (timeout : Z) (io : platform) (c : check)
    (after_ms : Z) (e : thrown) :
  guarded_operation_rejects io c after_ms e ->
  after_ms < timer_delay timeout ->
  check_entry timeout io c
  = Returned {| status := u "DOWN";
                detail := match e with
                          | Error message => message
                          | NotAnError => u "request failed"
                          end;
                latency_ms := None |}.
Proof.
  intros H Hd. unfold check_entry, probe, guarded_operation_rejects in *.
  destruct (kind c) as [url|url|host port];
    unfold probeJsonRpc, probeTendermintStatus, probeTcp;
    rewrite H; simpl connection_promise; rewrite (await_in_time _ _ _ Hd);
    reflexivity.
Qed.

Lemma transport_failure_is_down_example :
  check_entry 7000 refusing comet_check
  = Returned {| status := u "DOWN"; detail := u "fetch failed";
                latency_ms := None |}.
Proof.
  refine (transport_failure_is_down 7000 refusing comet_check 1
            (Error (u "fetch failed")) eq_refl _).
  reflexivity.
Defined.

(** X10.  A TCP check whose socket connects before the timer fires is
    [UP], with the difference of the two clock readings as latency; and
    a TCP check always gets an entry, it never keeps the run waiting. *)
Theorem tcp_connect_is_up (timeout : Z) (io : platform) (name host : js_string)
    (port after_ms : Z) :
  createConnection io host port = EmitsConnect after_ms ->
  after_ms < timer_delay timeout ->
  check_entry timeout io {| id := name; kind := tcp host port |}
  = Returned (up (now_on_return io - now_on_entry io))
  /\ forall io', check_entry timeout io' {| id := name; kind := tcp host port |}
                 <> Pending.
Proof.
  intros H Hd. split.
  - unfold check_entry, probe, probeTcp. cbn [kind]. rewrite H.
    cbn [connection_promise]. rewrite (await_in_time _ _ _ Hd). reflexivity.
  - intros io' Hp.
    destruct (check_entry_cases timeout io' {| id := name; kind := tcp host port |})
      as [(l & _ & E) | [(err & _ & E) | [Hpend _]]]; try congruence.
    apply probe_pending in Hpend. destruct Hpend as (url & res & Hk & _).
    discriminate.
Qed.

Lemma tcp_connect_is_up_example :
  check_entry 7000 healthy grpc_check = Returned (up 42).
Proof.
  refine (proj1 (tcp_connect_is_up 7000 healthy (u "infinite-grpc")
                   (u "grpc.infinitedrive.xyz") 443 30 eq_refl _)).
  reflexivity.
Defined.

(** X11.  The Tendermint probe looks at the status code only: a response
    that arrives in time with a status from 200 to 299 gives [UP]
    whatever its body is, even one that never arrives or that carries an
    error, because the body is never read. *)
Theorem tendermint_ignores_body (timeout : Z) (io : platform)
    (name url : js_string) (after_ms status_code : Z) (body_1 body_2 : promise json) :
  fetch io (url ++ u "/status") None
  = Settles after_ms (Fulfilled {| res_status := status_code;
                                   res_json := body_1 |}) ->
  after_ms < timer_delay timeout ->
  200 <= status_code <= 299 ->
  check_entry timeout io {| id := name; kind := tendermint url |}
  = Returned (up (now_on_return io - now_on_entry io))
  /\ check_entry timeout
       {| now_on_entry := now_on_entry io;
          now_on_return := now_on_return io;
          fetch := fun _ _ =>
            Settles after_ms (Fulfilled {| res_status := status_code;
                                           res_json := body_2 |});
          createConnection := createConnection io |}
       {| id := name; kind := tendermint url |}
     = check_entry timeout io {| id := name; kind := tendermint url |}.
Proof.
  intros H Hd Hs.
  assert (Hok : forall b, res_ok {| res_status := status_code; res_json := b |}
                          = true).
  { intros b. unfold res_ok. simpl. apply andb_true_intro.
    split; apply Z.leb_le; lia. }
  assert (E : check_entry timeout io {| id := name; kind := tendermint url |}
              = Returned (up (now_on_return io - now_on_entry io))).
  { unfold check_entry, probe, probeTendermintStatus. cbn [kind]. rewrite H.
    rewrite (await_in_time _ _ _ Hd). cbn [await bind]. now rewrite Hok. }
  split; [exact E|]. rewrite E.
  unfold check_entry, probe, probeTendermintStatus. cbn [kind fetch].
  rewrite (await_in_time _ _ _ Hd). cbn [await bind]. now rewrite Hok.
Qed.

Lemma tendermint_ignores_body_example :
  check_entry 7000 endless_body comet_check = Returned (up 10100).
Proof.
  refine (proj1 (tendermint_ignores_body 7000 endless_body (u "infinite-comet")
                   (u "https://comet-rpc.infinitedrive.xyz") 100 200
                   NeverSettles NeverSettles eq_refl _ _)).
  - reflexivity.
  - lia.
Defined.

(** X13.  When the [error] member of a JSON-RPC answer is truthy and is
    not an object (a string, a number, [true], an array), it has no
    [message] to read and the detail is the fallback [json-rpc error]:
    an answer [{error: boom}] is reported without the text [boom]. *)
Theorem non_object_error_gives_fallback (timeout : Z) (io : platform)
    (name url : js_string) (res : response) (d : Z) (data error : json) :
  await (withTimeout (fetch io url (Some jsonrpc_init)) timeout) = Returned res ->
  res_ok res = true ->
  res_json res = Settles d (Fulfilled data) ->
  get_prop data (u "error") = Some error ->
  truthy error = true ->
  (forall fields, error <> JObj fields) ->
  check_entry timeout io {| id := name; kind := jsonrpc url |}
  = Returned {| status := u "DOWN"; detail := u "json-rpc error";
                latency_ms := None |}.
Proof.
  intros Hf Hok Hj He Ht Hobj.
  unfold check_entry, probe. cbn [kind].
  rewrite (probeJsonRpc_with_body timeout io url res d data Hf Hok Hj).
  unfold rpc_error. rewrite He, Ht.
  rewrite json_rpc_error_fallback; [reflexivity|].
  left. destruct error; try reflexivity. now elim (Hobj fields).
Qed.

Lemma non_object_error_gives_fallback_example :
  check_entry 7000 string_error evm_check
  = Returned {| status := u "DOWN"; detail := u "json-rpc error";
                latency_ms := None |}.
Proof.
  refine (non_object_error_gives_fallback 7000 string_error (u "infinite-evm")
            (u "https://evm-rpc.infinitedrive.xyz") _ 2 _ (JStr (u "boom"))
            eq_refl eq_refl eq_refl eq_refl eq_refl _).
  discriminate.
Defined.

(** X14.  A timeout below 1 or above 2^31-1 is replaced by one
    millisecond by the timer: every probe whose guarded operation is
    still unsettled later than one millisecond after it started is then
    reported [DOWN], with the configured number, as JavaScript prints
    it, in its detail. *)
Theorem degenerate_timeout_is_one_millisecond (timeout : Z) (io : platform)
    (c : check) :
  timeout < 1 \/ 2147483647 < timeout ->
  guarded_operation_unsettled io c 1 ->
  check_entry timeout io c
  = Returned {| status := u "DOWN";
                detail := u "timeout after " ++ num_to_string timeout ++ u "ms";
                latency_ms := None |}.
Proof.
  intros Ht H. apply probe_times_out.
  now rewrite timer_delay_out_of_range.
Qed.

Lemma degenerate_timeout_is_one_millisecond_example :
  check_entry (REQUEST_TIMEOUT_MS oversized_timeout_settings) healthy evm_check
  = Returned {| status := u "DOWN"; detail := u "timeout after 3000000000ms";
                latency_ms := None |}
  /\ check_entry (10 ^ 21) healthy grpc_check
     = Returned {| status := u "DOWN"; detail := u "timeout after 1e+21ms";
                   latency_ms := None |}
  /\ check_entry 0 healthy grpc_check
     = Returned {| status := u "DOWN"; detail := u "timeout after 0ms";
                   latency_ms := None |}.
Proof.
  split; [|split].
  - refine (degenerate_timeout_is_one_millisecond 3000000000 healthy evm_check
              _ _).
    + right. reflexivity.
    + reflexivity.
  - refine (degenerate_timeout_is_one_millisecond (10 ^ 21) healthy grpc_check
              _ _).
    + right. reflexivity.
    + reflexivity.
  - refine (degenerate_timeout_is_one_millisecond 0 healthy grpc_check _ _).
    + left. reflexivity.
    + reflexivity.
Defined.

(** ** The registry and the environment *)

Lemma or_default_nonempty (x : option js_string) (d : js_string) :
  d <> [] -> or_default x d <> [].
Proof.
  intros Hd. unfold or_default. destruct x as [v|]; [|exact Hd].
  destruct v; simpl; [exact Hd | discriminate].
Qed.

Lemma or_default_empty_is_unset (x : option js_string) (d : js_string) :
  or_default (unset_if_empty x) d = or_default x d.
Proof.
  destruct x as [[|c v]|]; reflexivity.
Qed.

(** X15.  Whatever the environment holds, no check of the registry has
    an empty address and [CORS_ORIGIN] is never empty: a variable set to
    the empty string counts as unset, so that removing such variables
    changes neither the registry nor the allow-list. *)
Theorem registry_targets_are_never_empty (s : settings) :
  (forall c, In c (CHECKS s) -> target_of c <> [])
  /\ CORS_ORIGIN s <> []
  /\ CHECKS (without_empty_variables s) = CHECKS s
  /\ ALLOW_ORIGINS (without_empty_variables s) = ALLOW_ORIGINS s.
Proof.
  split; [|split; [|split]].
  - intros c Hin. unfold CHECKS in Hin. simpl in Hin.
    repeat (destruct Hin as [<-|Hin];
            [apply or_default_nonempty; discriminate|]).
    destruct Hin.
  - apply or_default_nonempty. discriminate.
  - unfold CHECKS, without_empty_variables. cbn [env INFINITE_GRPC_PORT
      INFINITE_GRPC_TESTNET_PORT].
    now rewrite !or_default_empty_is_unset.
  - unfold ALLOW_ORIGINS, CORS_ORIGIN, without_empty_variables. cbn [env].
    now rewrite or_default_empty_is_unset.
Qed.
